(** * RuleTree: a rule-gated, weighted-random decision tree

    Shallow embedding of [RuleTree.h] (the class template
    [RuleTree<ResultType>] with its nested classes [Rule], [TreeNode],
    [Branch] and [Leaf]) and the properties of its allocation bookkeeping,
    its name lookup and its bounded retry loop.

    Conventions of the embedding.
    - An object is identified by its address ([ptr]); a [TreeNode*] is an
      [option ptr], [None] being [nullptr].  A Branch holds its children by
      pointer; the embedding stores the pointed-to child objects in
      [m_nodes] (the structure is a tree), and every pointer comparison of
      the source ([std::find], the keys of [m_nodesPercentageMap], the
      entries of [m_percentageAllocations]) is a comparison of addresses.
    - [size_t] is an unsigned 64-bit integer: a [Z] in [0, 2^64) whose
      additions and subtractions wrap around ([size_t_wrap]).
    - An operation that may throw or whose behaviour is undefined returns
      a [res]: [Ok] with the object as the call leaves it, [Throw] (the
      C++ exception) or [Undefined].  [AllocatePercentage] throws before
      its first assignment, so its [Throw] leaves the object as it was; the
      state an exception leaves behind when it escapes a loop of calls is
      not modelled.
    - A member that a constructor does not initialise keeps what the
      storage of the object held; the constructors take that content as an
      argument.
    - [rand()] reads and updates a process-wide generator; the embedding
      threads the generator state explicitly.

    The file has the embedding of the source first, then the notions the
    specification speaks in, the proofs, and worked examples on a small
    tree. *)

From stdpp Require Import base numbers option list vector gmap strings pretty.

Set Warnings "-register-all".
Open Scope Z_scope.

(** ** Machine integers, pointers, results *)

Definition ptr := positive.
Bind Scope positive_scope with ptr.

Definition size_t_modulus : Z := 2 ^ 64.
Definition SIZE_MAX : Z := size_t_modulus - 1.
Definition size_t_wrap (z : Z) : Z := z `mod` size_t_modulus.

(** Modelled from the spec: [Named::NameString], the type of the name that
    the base class [Named] (BasicTradingTypes.h, not among the sources)
    gives a node; [GetName()] returns the name passed to the constructor
    and two names compare with [==].  A name is a string. *)
Abbreviation NameString := string.

(** Modelled from the spec: the class [Exception] of the three
    [throw Exception(Exception::Stream() << ...)] statements of [Branch]
    (its header is not among the sources).  An exception is identified by
    the statement that throws it and by the values its message is built
    from; the specification calls all three a ConfigurationError.
    [bad_function_call] is the exception of the C++ library. *)
Inductive Exception :=
| BadPercentAllocation (name : NameString) (requested : Z)
| NodeNotInBranch (name : NameString)
| SumPercentNot100 (name : NameString) (sum : Z)
| bad_function_call.

Inductive res (A : Type) :=
| Ok (a : A)
| Throw (e : Exception)
| Undefined.
Arguments Ok {A} a.
Arguments Throw {A} e.
Arguments Undefined {A}.

(** [res] is an error monad; [x ← r; k] is stdpp's bind notation. *)
#[global] Instance res_ret : MRet res := λ A a, Ok a.
#[global] Instance res_bind : MBind res := λ A B k r,
  match r with
  | Ok a => k a
  | Throw e => Throw e
  | Undefined => Undefined
  end.

Definition is_Ok {A} (r : res A) : Prop := ∃ a, r = Ok a.

Section RuleTree.

(** The template parameter and the external collaborators: the order a
    rule looks at, and the C library's generator behind [rand()], which
    returns a non-negative [int] and updates its hidden state. *)
Variable ResultType : Type.
Variable ParentOrder : Type.
Variable rand_state : Type.
Variable rand : rand_state → N * rand_state.

(** ** class Rule *)

(** [m_ruleFunction] is a [std::function]: empty after [Rule() = default],
    and calling an empty one throws [std::bad_function_call]. *)
Record Rule := { m_ruleFunction : option (ParentOrder → bool) }.

Definition Check (rule : Rule) (parent : ParentOrder) : res bool :=
  match m_ruleFunction rule with
  | Some f => Ok (f parent)
  | None => Throw bad_function_call
  end.

(** ** class TreeNode : public Named *)

Record TreeNodeBase := {
  this : ptr;
  GetName : NameString;
  m_parent : option ptr;
  m_rules : list Rule;
}.

Record LeafT := {
  leaf_base : TreeNodeBase;
  m_val : ResultType;
}.

Record BranchOf (T : Type) := {
  branch_base : TreeNodeBase;
  m_nodes : list T;
  m_nodesPercentageMap : gmap ptr Z;
  m_percentageAllocations : list (option ptr);
  m_lastAllocated : Z;
}.
Arguments branch_base {T} _.
Arguments m_nodes {T} _.
Arguments m_nodesPercentageMap {T} _.
Arguments m_percentageAllocations {T} _.
Arguments m_lastAllocated {T} _.

Inductive TreeNode :=
| Leaf (l : LeafT)
| Branch (b : BranchOf TreeNode).

Abbreviation BranchT := (BranchOf TreeNode).

Definition base (t : TreeNode) : TreeNodeBase :=
  match t with
  | Leaf l => leaf_base l
  | Branch b => branch_base b
  end.

Definition addr (t : TreeNode) : ptr := this (base t).

Definition IsLeaf (t : TreeNode) : bool :=
  match t with
  | Leaf _ => true
  | Branch _ => false
  end.

(** [explicit TreeNode(Named::NameString name) : Named(name) { }].
    The constructor gives [m_parent] no value: the member keeps whatever the
    storage of the new object held, passed here as [indeterminate]. *)
Definition TreeNode_ctor (self : ptr) (indeterminate : option ptr)
    (name : NameString) : TreeNodeBase :=
  {| this := self; GetName := name; m_parent := indeterminate; m_rules := [] |}.

Definition with_rules (nb : TreeNodeBase) (rules : list Rule) : TreeNodeBase :=
  {| this := this nb; GetName := GetName nb; m_parent := m_parent nb;
     m_rules := rules |}.

Definition with_parent (nb : TreeNodeBase) (p : option ptr) : TreeNodeBase :=
  {| this := this nb; GetName := GetName nb; m_parent := p;
     m_rules := m_rules nb |}.

Definition with_base (t : TreeNode) (nb : TreeNodeBase) : TreeNode :=
  match t with
  | Leaf l => Leaf {| leaf_base := nb; m_val := m_val l |}
  | Branch b =>
      Branch {| branch_base := nb; m_nodes := m_nodes b;
                m_nodesPercentageMap := m_nodesPercentageMap b;
                m_percentageAllocations := m_percentageAllocations b;
                m_lastAllocated := m_lastAllocated b |}
  end.

Definition AddRule (rule : Rule) (t : TreeNode) : TreeNode :=
  with_base t (with_rules (base t) (m_rules (base t) ++ [rule])).

Definition SetParent (node : option ptr) (t : TreeNode) : TreeNode :=
  with_base t (with_parent (base t) node).

Definition GetParent (t : TreeNode) : option ptr := m_parent (base t).

Fixpoint allRulesPassed (rules : list Rule) (parent : ParentOrder) : res bool :=
  match rules with
  | [] => Ok true
  | rule :: rest =>
      passed ← Check rule parent;
      if negb passed then Ok false else allRulesPassed rest parent
  end.

(** ** class Leaf *)

(** [Leaf(name, val) : Parent(name), m_val(val) { }] *)
Definition Leaf_ctor (self : ptr) (indeterminate : option ptr)
    (name : NameString) (val : ResultType) : LeafT :=
  {| leaf_base := TreeNode_ctor self indeterminate name; m_val := val |}.

(** ** class Branch: configuration *)

(** [Branch(name) : Parent(name) { }].  [m_lastAllocated] has the default
    member initializer [= 0], the vector and the map start empty, and the
    100-entry [std::array] of pointers is left as the storage held it. *)
Definition Branch_ctor (self : ptr) (indeterminate : option ptr)
    (indeterminate_slots : vec (option ptr) 100) (name : NameString)
    : BranchT :=
  {| branch_base := TreeNode_ctor self indeterminate name;
     m_nodes := [];
     m_nodesPercentageMap := ∅;
     m_percentageAllocations := vec_to_list indeterminate_slots;
     m_lastAllocated := 0 |}.

Definition children (b : BranchT) : list ptr := addr <$> m_nodes b.

(** [m_nodesPercentageMap[node]] read as an rvalue: a missing key reads as
    the value-initialised [0]. *)
Definition percentage_of (b : BranchT) (node : ptr) : Z :=
  default 0 (m_nodesPercentageMap b !! node).

Definition AddNode (node : TreeNode) (b : BranchT) : BranchT :=
  {| branch_base := branch_base b;
     m_nodes := m_nodes b ++ [SetParent (Some (this (branch_base b))) node];
     m_nodesPercentageMap := m_nodesPercentageMap b;
     m_percentageAllocations := m_percentageAllocations b;
     m_lastAllocated := m_lastAllocated b |}.

(** [for (size_t i = first; i < first + count; i++) slots[i] = node;] *)
Fixpoint assign_slots (count : nat) (i : nat) (node : ptr)
    (slots : list (option ptr)) : list (option ptr) :=
  match count with
  | O => slots
  | S count' => assign_slots count' (S i) node (<[i := Some node]> slots)
  end.

Definition AllocatePercentage (percentage : Z) (node : ptr) (b : BranchT)
    : res BranchT :=
  let upto := size_t_wrap (m_lastAllocated b + percentage) in
  if bool_decide (upto > 100) then
    Throw (BadPercentAllocation (GetName (branch_base b)) upto)
  else if bool_decide (node ∉ children b) then
    Throw (NodeNotInBranch (GetName (branch_base b)))
  else
    Ok {| branch_base := branch_base b;
          m_nodes := m_nodes b;
          m_nodesPercentageMap :=
            <[node := size_t_wrap (percentage_of b node + percentage)]>
              (m_nodesPercentageMap b);
          m_percentageAllocations :=
            assign_slots (Z.to_nat (upto - m_lastAllocated b))
              (Z.to_nat (m_lastAllocated b)) node (m_percentageAllocations b);
          m_lastAllocated := upto |}.

(** First loop of [SpreadPercentage]. *)
Fixpoint allocate_each (percentage : Z) (nodes : list TreeNode) (b : BranchT)
    : res BranchT :=
  match nodes with
  | [] => Ok b
  | node :: rest =>
      b' ← AllocatePercentage percentage (addr node) b;
      allocate_each percentage rest b'
  end.

(** Second loop of [SpreadPercentage]; [diff] is a [size_t]. *)
Fixpoint allocate_remainder (diff : Z) (nodes : list TreeNode) (b : BranchT)
    : res BranchT :=
  match nodes with
  | [] => Ok b
  | node :: rest =>
      if bool_decide (diff ≤ 0) then Ok b
      else
        b' ← AllocatePercentage 1 (addr node) b;
        allocate_remainder (size_t_wrap (diff - 1)) rest b'
  end.

(** [100 / m_nodes.size()] is an unsigned division; with no child its
    behaviour is undefined. *)
Definition SpreadPercentage (b : BranchT) : res BranchT :=
  let count := Z.of_nat (length (m_nodes b)) in
  if bool_decide (count = 0) then Undefined
  else
    let probabilityPerNode := 100 `div` count in
    b1 ← allocate_each probabilityPerNode (m_nodes b) b;
    if bool_decide (m_lastAllocated b1 ≠ 100) then
      let diff := size_t_wrap (100 - m_lastAllocated b1) in
      allocate_remainder diff (m_nodes b) b1
    else Ok b1.

(** [ResetAllocations] on this Branch, given what the call does on each
    child ([continue] on a Leaf, the recursive call on a Branch).  The loop
    over [m_nodes] writes [m_nodesPercentageMap[node] = 0] in this Branch
    and calls into the child, two effects on different objects, given here
    one after the other. *)
Definition ResetAllocations_with (on_child : TreeNode → TreeNode)
    (b : BranchT) : BranchT :=
  {| branch_base := branch_base b;
     m_nodes := on_child <$> m_nodes b;
     m_nodesPercentageMap :=
       foldl (λ m node, <[addr node := 0]> m) (m_nodesPercentageMap b)
         (m_nodes b);
     m_percentageAllocations := (λ _, None) <$> m_percentageAllocations b;
     m_lastAllocated := 0 |}.

Fixpoint ResetAllocations_node (t : TreeNode) : TreeNode :=
  match t with
  | Leaf l => Leaf l
  | Branch b => Branch (ResetAllocations_with ResetAllocations_node b)
  end.

Definition ResetAllocations (b : BranchT) : BranchT :=
  ResetAllocations_with ResetAllocations_node b.

Definition with_nodes (b : BranchT) (nodes : list TreeNode) : BranchT :=
  {| branch_base := branch_base b;
     m_nodes := nodes;
     m_nodesPercentageMap := m_nodesPercentageMap b;
     m_percentageAllocations := m_percentageAllocations b;
     m_lastAllocated := m_lastAllocated b |}.

Fixpoint res_mapM {A B} (f : A → res B) (l : list A) : res (list B) :=
  match l with
  | [] => Ok []
  | a :: l' => b ← f a; bs ← res_mapM f l'; Ok (b :: bs)
  end.

Definition SpreadPercentageOnAllNotSetNodes_with
    (on_child : TreeNode → res TreeNode) (b : BranchT) : res BranchT :=
  b1 ← (if bool_decide (m_lastAllocated b = 0) then SpreadPercentage b
        else Ok b);
  nodes ← res_mapM on_child (m_nodes b);
  Ok (with_nodes b1 nodes).

Fixpoint SpreadPercentageOnAllNotSetNodes_node (t : TreeNode) : res TreeNode :=
  match t with
  | Leaf l => Ok (Leaf l)
  | Branch b =>
      b' ← SpreadPercentageOnAllNotSetNodes_with
             SpreadPercentageOnAllNotSetNodes_node b;
      Ok (Branch b')
  end.

Definition SpreadPercentageOnAllNotSetNodes (b : BranchT) : res BranchT :=
  SpreadPercentageOnAllNotSetNodes_with SpreadPercentageOnAllNotSetNodes_node b.

(** ** Name lookup *)

(** The loop over [m_nodes] of [Branch::GetNodeByName]: the first child
    whose own lookup is not [nullptr]. *)
Fixpoint first_found (results : list (option TreeNode)) : option TreeNode :=
  match results with
  | [] => None
  | Some found :: _ => Some found
  | None :: rest => first_found rest
  end.

Fixpoint GetNodeByName (t : TreeNode) (name : NameString) : option TreeNode :=
  match t with
  | Leaf l =>
      if bool_decide (GetName (leaf_base l) = name) then Some t else None
  | Branch b =>
      if bool_decide (GetName (branch_base b) = name) then Some t
      else first_found ((λ node, GetNodeByName node name) <$> m_nodes b)
  end.

(** ** Routing: [Get] *)

(** A computation that may call [rand()]. *)
Definition Rand (A : Type) : Type := rand_state → res (A * rand_state).

Definition MAX_TRIES : Z := 100000.

Definition getRandomNode (b : BranchT) : Rand (option ptr) := λ g,
  if bool_decide (m_lastAllocated b ≠ 100) then
    Throw (SumPercentNot100 (GetName (branch_base b)) (m_lastAllocated b))
  else
    let '(r, g') := rand g in
    let percent := Z.of_N r `rem` 100 in
    match m_percentageAllocations b !! Z.to_nat percent with
    | Some node => Ok (node, g')
    | None => Undefined
    end.

Definition Leaf_Get (l : LeafT) (parent : ParentOrder) : Rand (option ResultType) :=
  λ g,
    passed ← allRulesPassed (m_rules (leaf_base l)) parent;
    if negb passed then Ok (None, g) else Ok (Some (m_val l), g).

(** The virtual call [node->Get(parent)] through a pointer held in the slot
    table: the pointer is looked up among the children, whose [Get] is given
    in [vtable]; any other pointer value is not that of a live node. *)
Fixpoint call_Get (vtable : list (ptr * Rand (option ResultType))) (node : ptr)
    : Rand (option ResultType) :=
  match vtable with
  | [] => λ _, Undefined
  | (p, get) :: rest => if bool_decide (p = node) then get else call_Get rest node
  end.

(** One pass through the body of the [for] loop of [Branch::Get]: [Some]
    is the value returned from inside the loop, [None] falls through to the
    next iteration. *)
Definition Get_try (b : BranchT) (vtable : list (ptr * Rand (option ResultType)))
    : Rand (option ResultType) := λ g,
  '(node, g1) ← getRandomNode b g;
  match node with
  | Some p => call_Get vtable p g1
  | None => Ok (None, g1)
  end.

(** [for (auto i = 0; i < MAX_TRIES; i++) { ... } return boost::none;]
    with [tries] iterations left. *)
Fixpoint Get_loop (tries : nat) (b : BranchT)
    (vtable : list (ptr * Rand (option ResultType))) : Rand (option ResultType) :=
  λ g,
    match tries with
    | O => Ok (None, g)
    | S tries' =>
        '(result, g') ← Get_try b vtable g;
        match result with
        | Some v => Ok (Some v, g')
        | None => Get_loop tries' b vtable g'
        end
    end.

Definition Branch_Get_with (vtable : list (ptr * Rand (option ResultType)))
    (b : BranchT) (parent : ParentOrder) : Rand (option ResultType) := λ g,
  passed ← allRulesPassed (m_rules (branch_base b)) parent;
  if negb passed then Ok (None, g)
  else Get_loop (Z.to_nat MAX_TRIES) b vtable g.

Fixpoint Get (t : TreeNode) (parent : ParentOrder) : Rand (option ResultType) :=
  match t with
  | Leaf l => Leaf_Get l parent
  | Branch b =>
      Branch_Get_with ((λ node, (addr node, Get node parent)) <$> m_nodes b)
        b parent
  end.

Definition Branch_Get (b : BranchT) (parent : ParentOrder)
    : Rand (option ResultType) :=
  Get (Branch b) parent.

(** The [Get] of each child of [b], by address. *)
Definition vtable (b : BranchT) (parent : ParentOrder)
    : list (ptr * Rand (option ResultType)) :=
  (λ node, (addr node, Get node parent)) <$> m_nodes b.

(** ** DumpTree *)

(** The stream [out] is the string written so far; [out << x] appends.
    A [size_t] is written in decimal and [std::endl] writes a newline. *)
Definition tab : string := String (Ascii.ascii_of_nat 9) EmptyString.
Definition endl : string := String (Ascii.ascii_of_nat 10) EmptyString.

(** [for (size_t i = 0; i < level; i++) out << "\t";]  The level is the
    depth of the node below the one [DumpTree] was called on, a [nat]. *)
Fixpoint indent (out : string) (level : nat) : string :=
  match level with
  | O => out
  | S level' => indent (out +:+ tab) level'
  end.

(** [m_nodesPercentageMap[node]] as [std::map::operator[]] evaluates it: a
    missing key is inserted with the value 0. *)
Definition map_subscript (m : gmap ptr Z) (node : ptr) : gmap ptr Z * Z :=
  match m !! node with
  | Some v => (m, v)
  | None => (<[node := 0]> m, 0)
  end.

(** The loop over [m_nodes] of [Branch::DumpTree], given the [DumpTree] of
    the children. *)
Fixpoint DumpTree_children
    (on_child : TreeNode → string → nat → string * TreeNode) (level : nat)
    (nodes : list TreeNode) (m : gmap ptr Z) (out : string)
    : string * list TreeNode * gmap ptr Z :=
  match nodes with
  | [] => (out, [], m)
  | node :: rest =>
      let out1 := indent out level in
      let '(m1, v) := map_subscript m (addr node) in
      let out2 := (out1 +:+ pretty v) +:+ " : " in
      let '(out3, node') := on_child node out2 (S level) in
      let '(out4, rest', m') := DumpTree_children on_child level rest m1 out3 in
      (out4, node' :: rest', m')
  end.

Definition Branch_DumpTree_with
    (on_child : TreeNode → string → nat → string * TreeNode)
    (b : BranchT) (out : string) (level : nat) : string * BranchT :=
  let out1 := (indent out level +:+ GetName (branch_base b)) +:+ endl in
  let '(out2, nodes', m') :=
    DumpTree_children on_child level (m_nodes b) (m_nodesPercentageMap b) out1 in
  (out2, {| branch_base := branch_base b;
            m_nodes := nodes';
            m_nodesPercentageMap := m';
            m_percentageAllocations := m_percentageAllocations b;
            m_lastAllocated := m_lastAllocated b |}).

Fixpoint DumpTree (t : TreeNode) (out : string) (level : nat)
    : string * TreeNode :=
  match t with
  | Leaf l =>
      ((indent out level +:+ GetName (leaf_base l)) +:+ endl, Leaf l)
  | Branch b =>
      let '(out', b') := Branch_DumpTree_with DumpTree b out level in
      (out', Branch b')
  end.

(** ** Induction over trees *)

Fixpoint TreeNode_tree_ind (P : TreeNode → Prop)
    (Hleaf : ∀ l, P (Leaf l))
    (Hbranch : ∀ b, Forall P (m_nodes b) → P (Branch b))
    (t : TreeNode) : P t :=
  match t with
  | Leaf l => Hleaf l
  | Branch b =>
      Hbranch b
        ((fix go (l : list TreeNode) : Forall P l :=
            match l with
            | [] => Forall_nil_2 P
            | n :: l' =>
                Forall_cons_2 P n l' (TreeNode_tree_ind P Hleaf Hbranch n) (go l')
            end) (m_nodes b))
  end.

(** ** Specification-side notions *)

(** The nodes of a subtree in self-first depth-first pre-order. *)
Fixpoint preorder (t : TreeNode) : list TreeNode :=
  match t with
  | Leaf _ => [t]
  | Branch b => t :: mjoin (preorder <$> m_nodes b)
  end.

Definition name_of (t : TreeNode) : NameString := GetName (base t).

(** A value of type [size_t]. *)
Definition is_size_t (z : Z) : Prop := 0 ≤ z < size_t_modulus.

(** The representation invariant of a Branch: what the constructor
    establishes and every operation keeps (see [Branch_ctor_wf],
    [AddNode_wf], [AllocatePercentage_wf], [SpreadPercentage_wf],
    [ResetAllocations_wf]).  The array has its 100 entries, the running
    total is a count of entries of it, the entries below the running total
    were written by [AllocatePercentage], and the map has no key but a
    child's address. *)
Record Branch_wf (b : BranchT) : Prop := {
  wf_slots_length : length (m_percentageAllocations b) = 100%nat;
  wf_last_range : 0 ≤ m_lastAllocated b ≤ 100;
  wf_slots_owned : ∀ i : nat, Z.of_nat i < m_lastAllocated b →
    ∃ node, m_percentageAllocations b !! i = Some (Some node) ∧
            node ∈ children b;
  wf_map_dom : ∀ node, is_Some (m_nodesPercentageMap b !! node) →
    node ∈ children b;
  wf_map_range : ∀ node, is_size_t (percentage_of b node);
}.

Definition has_child (b : BranchT) : Prop := m_nodes b ≠ [].

(** A property of every Branch of a subtree. *)
Inductive every_branch (P : BranchT → Prop) : TreeNode → Prop :=
| every_branch_leaf l : every_branch P (Leaf l)
| every_branch_branch b :
    P b → Forall (every_branch P) (m_nodes b) → every_branch P (Branch b).

Definition tree_wf : TreeNode → Prop := every_branch Branch_wf.

(** Executable versions of the predicates above. *)
Definition Branch_wf_check (b : BranchT) : bool :=
  bool_decide (length (m_percentageAllocations b) = 100%nat) &&
  bool_decide (0 ≤ m_lastAllocated b ≤ 100) &&
  forallb (λ slot : option ptr,
             match slot with
             | Some node => bool_decide (node ∈ children b)
             | None => false
             end)
    (take (Z.to_nat (m_lastAllocated b)) (m_percentageAllocations b)) &&
  forallb (λ kv : ptr * Z,
             bool_decide (kv.1 ∈ children b) &&
             bool_decide (0 ≤ kv.2 < size_t_modulus))
    (map_to_list (m_nodesPercentageMap b)).

Definition has_child_check (b : BranchT) : bool :=
  match m_nodes b with
  | [] => false
  | _ :: _ => true
  end.

Fixpoint every_branch_check (check : BranchT → bool) (t : TreeNode) : bool :=
  match t with
  | Leaf _ => true
  | Branch b => check b && forallb (every_branch_check check) (m_nodes b)
  end.

(** A sequence of [AllocatePercentage] calls, as the two loops of
    [SpreadPercentage] issue them. *)
Fixpoint allocate_all (allocs : list (ptr * Z)) (b : BranchT) : res BranchT :=
  match allocs with
  | [] => Ok b
  | (node, percentage) :: rest =>
      b' ← AllocatePercentage percentage node b;
      allocate_all rest b'
  end.

(** What a sequence of allocations adds to the slot table and to the map. *)
Definition slots_of (allocs : list (ptr * Z)) : list (option ptr) :=
  allocs ≫= (λ a, replicate (Z.to_nat a.2) (Some a.1)).

Definition record_allocation (m : gmap ptr Z) (a : ptr * Z) : gmap ptr Z :=
  <[a.1 := size_t_wrap (default 0 (m !! a.1) + a.2)]> m.

Definition total_of (allocs : list (ptr * Z)) : Z :=
  foldr Z.add 0 (snd <$> allocs).

(** The calls of [SpreadPercentage] on [nodes]: [100 / N] to each, then
    one more to each of the first [100 mod N]. *)
Definition spread_calls (nodes : list ptr) : list (ptr * Z) :=
  let count := Z.of_nat (length nodes) in
  ((λ node, (node, 100 `div` count)) <$> nodes) ++
  ((λ node, (node, 1)) <$> take (Z.to_nat (100 `mod` count)) nodes).

(** What a sequence of allocations gives to [node] in all. *)
Definition allocated_to (node : ptr) (allocs : list (ptr * Z)) : Z :=
  total_of (filter (λ a, a.1 = node) allocs).

(** The share of the child at position [i] among [count] children. *)
Definition share (count : nat) (i : nat) : Z :=
  100 `div` Z.of_nat count +
  (if decide (Z.of_nat i < 100 `mod` Z.of_nat count) then 1 else 0).

(** The number of slots of the table that hold [node]. *)
Definition slots_owned (b : BranchT) (node : ptr) : nat :=
  length (filter (λ slot, slot = Some node) (m_percentageAllocations b)).

(** C6, in the words of the specification: [SpreadPercentage] is applied
    to every Branch of the subtree whose running total is zero, and a
    Branch with a nonzero total keeps its own allocation state. *)
Inductive spread_unset : TreeNode → TreeNode → Prop :=
| spread_unset_leaf l : spread_unset (Leaf l) (Leaf l)
| spread_unset_branch b b1 nodes' :
    (if decide (m_lastAllocated b = 0) then SpreadPercentage b = Ok b1
     else b1 = b) →
    Forall2 spread_unset (m_nodes b) nodes' →
    spread_unset (Branch b) (Branch (with_nodes b1 nodes')).

(** C7: [t0] is [t] as freshly built: the same nodes, and every Branch as
    its constructor and [AddNode] leave it, never allocated (an empty map,
    a zero running total, an array of 100 indeterminate entries). *)
Inductive freshly_built : TreeNode → TreeNode → Prop :=
| freshly_built_leaf l : freshly_built (Leaf l) (Leaf l)
| freshly_built_branch b b0 :
    branch_base b0 = branch_base b →
    Forall2 freshly_built (m_nodes b) (m_nodes b0) →
    m_nodesPercentageMap b0 = ∅ →
    length (m_percentageAllocations b0) = 100%nat →
    m_lastAllocated b0 = 0 →
    freshly_built (Branch b) (Branch b0).

(** C1: the child object a slot's pointer refers to. *)
Definition child_at (b : BranchT) (node : ptr) : option TreeNode :=
  head (filter (λ n, addr n = node) (m_nodes b)).

(** C1, one attempt in the words of the specification: draw an integer in
    [0, 100), look up the owning child in the slot table, call that child's
    [Get]; [r] is what the call returned. *)
Inductive Attempt (b : BranchT) (parent : ParentOrder) (g : rand_state)
    (r : res (option ResultType * rand_state)) : Prop :=
| Attempt_intro (x : N) (g1 : rand_state) (d : nat) (child : TreeNode) :
    rand g = (x, g1) →
    d = N.to_nat (x `mod` 100) →
    (d < 100)%nat →
    m_percentageAllocations b !! d = Some (Some (addr child)) →
    child_at b (addr child) = Some child →
    r = Get child parent g1 →
    Attempt b parent g r.

(** [k] attempts in a row, each returning absent, take the generator from
    [g] to [g']. *)
Inductive AbsentRun (b : BranchT) (parent : ParentOrder)
    : nat → rand_state → rand_state → Prop :=
| AbsentRun_O g : AbsentRun b parent 0 g g
| AbsentRun_S k g g1 g' :
    Attempt b parent g (Ok (None, g1)) →
    AbsentRun b parent k g1 g' →
    AbsentRun b parent (S k) g g'.

(** C1, the retry loop in the words of the specification: [r] is the first
    result that is not absent among at most [MAX_TRIES] attempts, or absent
    after [MAX_TRIES] attempts that all returned absent, or the outcome of
    an attempt in which the child's own [Get] raised. *)
Definition Retry_outcome (b : BranchT) (parent : ParentOrder) (g : rand_state)
    (r : res (option ResultType * rand_state)) : Prop :=
  (∃ (k : nat) g1 v g2, Z.of_nat k < MAX_TRIES ∧
      AbsentRun b parent k g g1 ∧
      Attempt b parent g1 (Ok (Some v, g2)) ∧ r = Ok (Some v, g2)) ∨
  (∃ g', AbsentRun b parent (Z.to_nat MAX_TRIES) g g' ∧ r = Ok (None, g')) ∨
  (∃ (k : nat) g1, Z.of_nat k < MAX_TRIES ∧
      AbsentRun b parent k g g1 ∧ Attempt b parent g1 r ∧ ¬ is_Ok r).

(** A subtree ready for routing, as the builder must leave it: every rule
    holds a function, and every Branch satisfies the invariant with its
    running total at exactly 100. *)
Definition callable (rule : Rule) : Prop := is_Some (m_ruleFunction rule).

Inductive routing_ready : TreeNode → Prop :=
| routing_ready_leaf l :
    Forall callable (m_rules (leaf_base l)) → routing_ready (Leaf l)
| routing_ready_branch b :
    Forall callable (m_rules (branch_base b)) →
    Branch_wf b → m_lastAllocated b = 100 →
    Forall routing_ready (m_nodes b) →
    routing_ready (Branch b).

Definition callable_check (rules : list Rule) : bool :=
  forallb (λ rule, match m_ruleFunction rule with
                   | Some _ => true
                   | None => false
                   end) rules.

Fixpoint routing_ready_check (t : TreeNode) : bool :=
  match t with
  | Leaf l => callable_check (m_rules (leaf_base l))
  | Branch b =>
      callable_check (m_rules (branch_base b)) && Branch_wf_check b &&
      bool_decide (m_lastAllocated b = 100) &&
      forallb routing_ready_check (m_nodes b)
  end.

(** ** Name lookup: proofs *)

Lemma first_found_app l1 l2 :
  first_found (l1 ++ l2) =
  match first_found l1 with Some f => Some f | None => first_found l2 end.
Proof.
  induction l1 as [|[f|] l1 IH]; simpl; [done..|]. apply IH.
Qed.

Lemma preorder_head t : ∃ rest, preorder t = t :: rest.
Proof. destruct t; simpl; eauto. Qed.

Lemma GetNodeByName_head_filter t name :
  GetNodeByName t name = head (filter (λ n, name_of n = name) (preorder t)).
Proof.
  induction t as [l|b IH] using TreeNode_tree_ind; simpl.
  - rewrite filter_cons, filter_nil. unfold name_of; simpl.
    case_bool_decide; case_decide; done.
  - rewrite filter_cons. unfold name_of at 1; simpl.
    case_bool_decide; case_decide; try done. clear H H0.
    induction IH as [|n ns Hn _ IHns]; simpl; [done|].
    rewrite filter_app, Hn.
    destruct (filter _ (preorder n)) as [|f fs]; simpl; [apply IHns|done].
Qed.

(** ** Allocation: proofs *)

Lemma res_bind_Ok {A B} (a : A) (k : A → res B) : Ok a ≫= k = k a.
Proof. reflexivity. Qed.

Lemma size_t_modulus_eq : size_t_modulus = 18446744073709551616.
Proof. reflexivity. Qed.

Lemma size_t_wrap_small z : is_size_t z → size_t_wrap z = z.
Proof. intros [??]. unfold size_t_wrap. by apply Z.mod_small. Qed.

Lemma size_t_wrap_range z : is_size_t (size_t_wrap z).
Proof.
  unfold is_size_t, size_t_wrap. rewrite size_t_modulus_eq.
  apply Z.mod_pos_bound. lia.
Qed.

Lemma size_t_wrap_add_l a p :
  size_t_wrap (size_t_wrap a + p) = size_t_wrap (a + p).
Proof. unfold size_t_wrap. apply Zplus_mod_idemp_l. Qed.

Lemma size_t_percent z : 0 ≤ z ≤ 100 → is_size_t z.
Proof. unfold is_size_t. rewrite size_t_modulus_eq. lia. Qed.

Lemma size_t_percent_wide z : 0 ≤ z ≤ 200 → is_size_t z.
Proof. unfold is_size_t. rewrite size_t_modulus_eq. lia. Qed.

Lemma assign_slots_length count i node slots :
  length (assign_slots count i node slots) = length slots.
Proof.
  revert i slots. induction count as [|count IH]; intros i slots; simpl; [done|].
  by rewrite IH, length_insert.
Qed.

Lemma assign_slots_eq count i node (slots : list (option ptr)) :
  (i + count ≤ length slots)%nat →
  assign_slots count i node slots =
  take i slots ++ replicate count (Some node) ++ drop (i + count) slots.
Proof.
  revert i slots. induction count as [|count IH]; intros i slots Hlen; simpl.
  - by rewrite Nat.add_0_r, take_drop.
  - rewrite IH by (rewrite length_insert; lia).
    rewrite (take_S_r _ i (Some node))
      by (apply list_lookup_insert_eq; lia).
    rewrite take_insert_ge by lia.
    rewrite drop_insert_lt by lia.
    rewrite <- app_assoc. simpl.
    by replace (i + S count)%nat with (S (i + count)) by lia.
Qed.

Lemma assign_slots_lookup count i node (slots : list (option ptr)) (j : nat) :
  (i + count ≤ length slots)%nat →
  assign_slots count i node slots !! j =
  if decide (i ≤ j < i + count)%nat then Some (Some node) else slots !! j.
Proof.
  intros Hlen. rewrite assign_slots_eq by done.
  case_decide as Hj.
  - rewrite lookup_app_r by (rewrite length_take; lia).
    rewrite length_take, Nat.min_l by lia.
    rewrite lookup_app_l by (rewrite length_replicate; lia).
    apply lookup_replicate_2. lia.
  - destruct (decide (j < i)%nat).
    + rewrite lookup_app_l by (rewrite length_take; lia).
      by rewrite lookup_take_lt.
    + rewrite lookup_app_r by (rewrite length_take; lia).
      rewrite length_take, Nat.min_l by lia.
      rewrite lookup_app_r by (rewrite length_replicate; lia).
      rewrite length_replicate, lookup_drop. f_equal. lia.
Qed.

(** Within the budget and on a child, the call succeeds and its effect is
    the three assignments of the source. *)
Lemma AllocatePercentage_Ok (b : BranchT) percentage node :
  0 ≤ percentage → 0 ≤ m_lastAllocated b →
  m_lastAllocated b + percentage ≤ 100 →
  node ∈ children b →
  AllocatePercentage percentage node b =
  Ok {| branch_base := branch_base b;
        m_nodes := m_nodes b;
        m_nodesPercentageMap :=
          record_allocation (m_nodesPercentageMap b) (node, percentage);
        m_percentageAllocations :=
          assign_slots (Z.to_nat percentage) (Z.to_nat (m_lastAllocated b))
            node (m_percentageAllocations b);
        m_lastAllocated := m_lastAllocated b + percentage |}.
Proof.
  intros Hp Hl Hsum Hin. unfold AllocatePercentage.
  rewrite size_t_wrap_small by (apply size_t_percent; lia).
  rewrite bool_decide_eq_false_2 by lia.
  rewrite bool_decide_eq_false_2 by (by intros ?).
  do 3 f_equal. lia.
Qed.

(** The call throws exactly on the two guards of the source, the first one
    on the sum as [size_t] arithmetic computes it. *)
Lemma AllocatePercentage_throws (b : BranchT) percentage node :
  (∃ e, AllocatePercentage percentage node b = Throw e) ↔
  size_t_wrap (m_lastAllocated b + percentage) > 100 ∨ node ∉ children b.
Proof.
  unfold AllocatePercentage. repeat case_bool_decide; split.
  - by left.
  - eauto.
  - by right.
  - eauto.
  - by intros [? ?].
  - intros [?|?]; [lia|done].
Qed.

Lemma AllocatePercentage_defined (b : BranchT) percentage node :
  AllocatePercentage percentage node b ≠ Undefined.
Proof. unfold AllocatePercentage. by repeat case_bool_decide. Qed.

(** The invariant is kept by every call that returns, whatever the
    [size_t] passed. *)
Lemma AllocatePercentage_wf (b b' : BranchT) percentage node :
  is_size_t percentage → Branch_wf b →
  AllocatePercentage percentage node b = Ok b' → Branch_wf b'.
Proof.
  intros Hp [Hlen Hlast Hown Hdom Hrange]. unfold AllocatePercentage.
  pose proof (size_t_wrap_range (m_lastAllocated b + percentage)) as Hupto.
  set (upto := size_t_wrap (m_lastAllocated b + percentage)) in *.
  repeat case_bool_decide; [done..|]. intros [= <-].
  rename select (node ∈ children b) into Hin.
  destruct Hupto as [Hupto0 _].
  split; simpl.
  - by rewrite assign_slots_length.
  - lia.
  - intros i Hi. rewrite assign_slots_lookup by lia.
    case_decide; [eauto|]. apply Hown. lia.
  - intros k. unfold children; simpl. fold (children b).
    destruct (decide (node = k)) as [->|Hne]; [done|].
    rewrite lookup_insert_ne by done. apply Hdom.
  - intros k. unfold percentage_of; simpl.
    destruct (decide (node = k)) as [->|Hne].
    + rewrite lookup_insert_eq. apply size_t_wrap_range.
    + rewrite lookup_insert_ne by done. apply Hrange.
Qed.

Lemma Branch_ctor_wf self indeterminate slots name :
  Branch_wf (Branch_ctor self indeterminate slots name).
Proof.
  split; simpl.
  - apply length_vec_to_list.
  - lia.
  - intros i Hi. lia.
  - intros node [? Hsome]. by rewrite lookup_empty in Hsome.
  - intros node. unfold percentage_of; simpl. rewrite lookup_empty.
    apply size_t_percent. simpl. lia.
Qed.

Lemma AddNode_wf node (b : BranchT) : Branch_wf b → Branch_wf (AddNode node b).
Proof.
  intros [Hlen Hlast Hown Hdom Hrange].
  assert (∀ k, k ∈ children b → k ∈ children (AddNode node b)) as Hsub.
  { intros k Hk. unfold children; simpl. rewrite fmap_app.
    apply elem_of_app. by left. }
  split; simpl; [done..| | |done].
  - intros i Hi. destruct (Hown i Hi) as (k & ? & ?). eauto.
  - intros k Hk. auto.
Qed.

Lemma allocate_all_app l1 l2 (b : BranchT) :
  allocate_all (l1 ++ l2) b = allocate_all l1 b ≫= allocate_all l2.
Proof.
  revert b. induction l1 as [|[node p] l1 IH]; intros b; simpl; [done|].
  destruct (AllocatePercentage p node b); simpl; [apply IH|done..].
Qed.

Lemma allocate_all_defined allocs (b : BranchT) :
  allocate_all allocs b ≠ Undefined.
Proof.
  revert b. induction allocs as [|[node p] allocs IH]; intros b; simpl; [done|].
  pose proof (AllocatePercentage_defined b p node).
  destruct (AllocatePercentage p node b); simpl; [apply IH|done..].
Qed.

Lemma total_of_cons a allocs : total_of (a :: allocs) = a.2 + total_of allocs.
Proof. reflexivity. Qed.

Lemma total_of_app l1 l2 : total_of (l1 ++ l2) = total_of l1 + total_of l2.
Proof.
  induction l1 as [|a l1 IH]; [done|].
  simpl. rewrite !total_of_cons, IH. lia.
Qed.

Lemma total_of_nonneg allocs :
  Forall (λ a : ptr * Z, 0 ≤ a.2) allocs → 0 ≤ total_of allocs.
Proof.
  induction 1 as [|a l Ha _ IH]; [done|]. rewrite total_of_cons. lia.
Qed.

Lemma allocate_all_Ok allocs (b : BranchT) :
  Forall (λ a, 0 ≤ a.2 ∧ a.1 ∈ children b) allocs →
  0 ≤ m_lastAllocated b →
  m_lastAllocated b + total_of allocs ≤ 100 →
  length (m_percentageAllocations b) = 100%nat →
  allocate_all allocs b =
  Ok {| branch_base := branch_base b;
        m_nodes := m_nodes b;
        m_nodesPercentageMap := foldl record_allocation (m_nodesPercentageMap b) allocs;
        m_percentageAllocations :=
          take (Z.to_nat (m_lastAllocated b)) (m_percentageAllocations b) ++
          slots_of allocs ++
          drop (Z.to_nat (m_lastAllocated b + total_of allocs))
            (m_percentageAllocations b);
        m_lastAllocated := m_lastAllocated b + total_of allocs |}.
Proof.
  revert b. induction allocs as [|[node p] allocs IH]; intros b Hall Hl Hsum Hlen.
  - simpl. unfold total_of; simpl. rewrite Z.add_0_r, take_drop. by destruct b.
  - apply Forall_cons in Hall as [[Hp Hin] Hall]. simpl in Hp, Hin.
    assert (0 ≤ total_of allocs).
    { apply total_of_nonneg. eapply Forall_impl; [done|]. by intros ? [??]. }
    rewrite total_of_cons in *. simpl in Hsum |- *.
    simpl. rewrite AllocatePercentage_Ok by (done || lia). simpl.
    rewrite IH; simpl; [|done|lia|lia|by rewrite assign_slots_length].
    f_equal. f_equal; [|lia].
    rewrite assign_slots_eq by lia.
    rewrite (app_assoc (take _ _) (replicate _ _)).
    rewrite take_app_length'
      by (rewrite length_app, length_take, length_replicate; lia).
    rewrite drop_app_ge
      by (rewrite length_app, length_take, length_replicate; lia).
    rewrite drop_drop, length_app, length_take, length_replicate.
    unfold slots_of at 2. simpl. fold (slots_of allocs).
    rewrite <- !app_assoc. do 4 f_equal. lia.
Qed.

(** ** SpreadPercentage: proofs *)

Lemma allocate_each_eq percentage nodes (b : BranchT) :
  allocate_each percentage nodes b =
  allocate_all ((λ node, (node, percentage)) <$> (addr <$> nodes)) b.
Proof.
  revert b. induction nodes as [|n nodes IH]; intros b; simpl; [done|].
  destruct (AllocatePercentage percentage (addr n) b); simpl; [apply IH|done..].
Qed.

Lemma allocate_remainder_eq diff nodes (b : BranchT) :
  is_size_t diff →
  allocate_remainder diff nodes b =
  allocate_all ((λ node, (node, 1)) <$> take (Z.to_nat diff) (addr <$> nodes)) b.
Proof.
  revert diff b. induction nodes as [|n nodes IH]; intros diff b Hdiff; simpl.
  - by rewrite take_nil.
  - case_bool_decide as Hle.
    + destruct Hdiff. by replace diff with 0 by lia.
    + replace (Z.to_nat diff) with (S (Z.to_nat (diff - 1))) by lia. simpl.
      destruct (AllocatePercentage 1 (addr n) b); simpl; [|done..].
      rewrite size_t_wrap_small by (unfold is_size_t in *; lia).
      apply IH. unfold is_size_t in *; lia.
Qed.

Lemma total_of_const (c : Z) (nodes : list ptr) :
  total_of ((λ node, (node, c)) <$> nodes) = c * Z.of_nat (length nodes).
Proof.
  induction nodes as [|n nodes IH]; [unfold total_of; simpl; lia|].
  rewrite fmap_cons, total_of_cons, IH. simpl length. simpl snd. lia.
Qed.

Lemma spread_calls_total (nodes : list ptr) :
  nodes ≠ [] → total_of (spread_calls nodes) = 100.
Proof.
  intros Hne. unfold spread_calls.
  assert (0 < Z.of_nat (length nodes)) as Hpos by (destruct nodes; simpl; [done|lia]).
  pose proof (Z.mod_pos_bound 100 _ Hpos).
  rewrite total_of_app, !total_of_const, length_take, Nat.min_l by lia.
  rewrite Z2Nat.id by lia.
  pose proof (Z.div_mod 100 (Z.of_nat (length nodes))). lia.
Qed.

Lemma spread_calls_valid (nodes : list ptr) :
  nodes ≠ [] → Forall (λ a, 0 ≤ a.2 ∧ a.1 ∈ nodes) (spread_calls nodes).
Proof.
  intros Hne.
  assert (0 < Z.of_nat (length nodes)) as Hpos by (destruct nodes; simpl; [done|lia]).
  unfold spread_calls. apply Forall_app; split; apply Forall_fmap, Forall_forall;
    intros node Hnode; simpl.
  - split; [|done]. apply Z.div_pos; lia.
  - split; [lia|]. by eapply subseteq_take.
Qed.

(** On a Branch whose running total is zero, [SpreadPercentage] is the
    sequence [spread_calls] of allocations. *)
Lemma SpreadPercentage_calls (b : BranchT) :
  m_lastAllocated b = 0 → m_nodes b ≠ [] →
  length (m_percentageAllocations b) = 100%nat →
  SpreadPercentage b = allocate_all (spread_calls (children b)) b.
Proof.
  intros Hlast Hne Hlen. unfold SpreadPercentage.
  assert (children b ≠ []) as Hne'.
  { unfold children. by destruct (m_nodes b). }
  pose proof (spread_calls_valid _ Hne') as Hvalid.
  pose proof (spread_calls_total _ Hne') as Htotal.
  unfold spread_calls in *. rewrite allocate_all_app.
  apply Forall_app in Hvalid as [Hv1 Hv2].
  rewrite total_of_app in Htotal.
  assert (length (children b) = length (m_nodes b)) as Hcount
    by apply length_fmap.
  rewrite Hcount in *.
  set (count := Z.of_nat (length (m_nodes b))) in *.
  assert (0 < count) as Hpos by (subst count; destruct (m_nodes b); simpl; [done|lia]).
  rewrite bool_decide_eq_false_2 by lia.
  rewrite allocate_each_eq. fold (children b).
  pose proof (total_of_nonneg ((λ node, (node, 1)) <$>
    take (Z.to_nat (100 `mod` count)) (children b))) as Hnn.
  rewrite allocate_all_Ok; [|done|lia| |done].
  2:{ specialize (Hnn ltac:(eapply Forall_impl; [done|]; by intros ? [??])). lia. }
  simpl. rewrite Hlast, Z.add_0_l.
  rewrite total_of_const, Hcount. fold count.
  pose proof (Z.div_mod 100 count ltac:(lia)) as Hdm.
  pose proof (Z.mod_pos_bound 100 count Hpos) as Hmod.
  pose proof (Z.mod_le 100 count ltac:(lia) Hpos) as Hmod100.
  case_bool_decide as H100.
  - rewrite allocate_remainder_eq by apply size_t_wrap_range.
    fold (children b).
    rewrite size_t_wrap_small
      by (unfold is_size_t; rewrite size_t_modulus_eq; lia).
    by replace (100 - 100 `div` count * count) with (100 `mod` count) by lia.
  - replace (100 `mod` count) with 0 by lia. done.
Qed.

Lemma SpreadPercentage_Ok (b : BranchT) :
  m_lastAllocated b = 0 → m_nodes b ≠ [] →
  length (m_percentageAllocations b) = 100%nat →
  SpreadPercentage b =
  Ok {| branch_base := branch_base b;
        m_nodes := m_nodes b;
        m_nodesPercentageMap :=
          foldl record_allocation (m_nodesPercentageMap b)
            (spread_calls (children b));
        m_percentageAllocations := slots_of (spread_calls (children b));
        m_lastAllocated := 100 |}.
Proof.
  intros Hlast Hne Hlen. rewrite SpreadPercentage_calls by done.
  assert (children b ≠ []) as Hne'.
  { unfold children. by destruct (m_nodes b). }
  pose proof (spread_calls_total _ Hne') as Htotal.
  rewrite allocate_all_Ok;
    [|apply spread_calls_valid; done|lia|lia|done].
  rewrite Htotal, Hlast. simpl. do 2 f_equal.
  rewrite drop_ge by lia. apply app_nil_r.
Qed.

Lemma allocated_to_cons node a allocs :
  allocated_to node (a :: allocs) =
  (if decide (a.1 = node) then a.2 else 0) + allocated_to node allocs.
Proof.
  unfold allocated_to. rewrite filter_cons.
  case_decide; [by rewrite total_of_cons|lia].
Qed.

Lemma allocated_to_app node l1 l2 :
  allocated_to node (l1 ++ l2) = allocated_to node l1 + allocated_to node l2.
Proof. unfold allocated_to. by rewrite filter_app, total_of_app. Qed.

Lemma allocated_to_nonneg node allocs :
  Forall (λ a : ptr * Z, 0 ≤ a.2) allocs → 0 ≤ allocated_to node allocs.
Proof.
  induction 1 as [|a allocs Ha _ IH]; [done|].
  rewrite allocated_to_cons. case_decide; lia.
Qed.

Lemma allocated_to_absent node allocs :
  node ∉ allocs.*1 → allocated_to node allocs = 0.
Proof.
  induction allocs as [|a allocs IH]; [done|]. intros Hnot.
  rewrite allocated_to_cons, IH.
  - rewrite decide_False; [done|]. intros <-. apply Hnot. left.
  - intros ?. apply Hnot. by right.
Qed.

Lemma allocated_to_const node c (nodes : list ptr) :
  NoDup nodes →
  allocated_to node ((λ n, (n, c)) <$> nodes) =
  if decide (node ∈ nodes) then c else 0.
Proof.
  induction 1 as [|n nodes Hn _ IH]; [done|].
  rewrite fmap_cons, allocated_to_cons, IH. simpl.
  destruct (decide (n = node)) as [->|Hne].
  - rewrite (decide_False (P := node ∈ nodes)) by done.
    rewrite decide_True by left. lia.
  - destruct (decide (node ∈ nodes)).
    + rewrite decide_True by (by right). lia.
    + rewrite decide_False; [lia|]. by intros [?|?]%elem_of_cons.
Qed.

Lemma filter_replicate_slot (node other : ptr) n :
  length (filter (λ slot, slot = Some node) (replicate n (Some other))) =
  if decide (other = node) then n else 0%nat.
Proof.
  induction n as [|n IH]; simpl; [by case_decide|].
  rewrite filter_cons. repeat case_decide; simplify_eq; simpl; by rewrite ?IH.
Qed.

Lemma slots_of_cons a allocs :
  slots_of (a :: allocs) = replicate (Z.to_nat a.2) (Some a.1) ++ slots_of allocs.
Proof. reflexivity. Qed.

Lemma slots_of_owned node allocs :
  Forall (λ a : ptr * Z, 0 ≤ a.2) allocs →
  length (filter (λ slot, slot = Some node) (slots_of allocs)) =
  Z.to_nat (allocated_to node allocs).
Proof.
  induction 1 as [|a allocs Ha Hall IH]; [done|].
  rewrite slots_of_cons, filter_app, length_app, IH.
  rewrite filter_replicate_slot, allocated_to_cons.
  pose proof (allocated_to_nonneg node allocs Hall).
  case_decide; lia.
Qed.

Lemma record_allocations_lookup_raw (m : gmap ptr Z) allocs node :
  foldl record_allocation m allocs !! node =
  if decide (node ∈ allocs.*1)
  then Some (size_t_wrap (default 0 (m !! node) + allocated_to node allocs))
  else m !! node.
Proof.
  revert m. induction allocs as [|a allocs IH]; intros m.
  - done.
  - rewrite fmap_cons. simpl foldl.
    rewrite IH, allocated_to_cons. unfold record_allocation at 1 2.
    destruct (decide (a.1 = node)) as [Heq|Hne].
    + rewrite Heq, !lookup_insert_eq. simpl.
      rewrite (decide_True (P := node ∈ node :: allocs.*1)) by left.
      case_decide.
      * rewrite size_t_wrap_add_l. do 2 f_equal. lia.
      * rewrite allocated_to_absent by done. do 2 f_equal; lia.
    + rewrite !lookup_insert_ne by done.
      destruct (decide (node ∈ allocs.*1)).
      * by rewrite decide_True by (by right).
      * rewrite decide_False; [done|]. by intros [?|?]%elem_of_cons.
Qed.

Lemma record_allocations_lookup (m : gmap ptr Z) allocs node :
  default 0 (foldl record_allocation m allocs !! node) =
  if decide (node ∈ allocs.*1)
  then size_t_wrap (default 0 (m !! node) + allocated_to node allocs)
  else default 0 (m !! node).
Proof. rewrite record_allocations_lookup_raw. by case_decide. Qed.

Lemma NoDup_take_prefix (nodes : list ptr) n : NoDup nodes → NoDup (take n nodes).
Proof. intros Hnd. apply (sublist_NoDup _ nodes); [done|apply sublist_take]. Qed.

Lemma share_spread_calls (nodes : list ptr) i node :
  NoDup nodes → nodes !! i = Some node →
  allocated_to node (spread_calls nodes) = share (length nodes) i.
Proof.
  intros Hnd Hi. unfold spread_calls, share.
  rewrite allocated_to_app.
  rewrite allocated_to_const by done.
  rewrite allocated_to_const by (by apply NoDup_take_prefix).
  rewrite decide_True by (by eapply list_elem_of_lookup_2).
  f_equal.
  set (r := 100 `mod` Z.of_nat (length nodes)).
  destruct (decide (node ∈ take (Z.to_nat r) nodes)) as [Hin|Hnin];
    destruct (decide (Z.of_nat i < r)) as [Hlt|Hge]; try done.
  - apply elem_of_take in Hin as (j & Hj & Hjlt).
    pose proof (NoDup_lookup _ _ _ _ Hnd Hi Hj). lia.
  - exfalso. apply Hnin, elem_of_take. exists i. split; [done|lia].
Qed.

Lemma share_range count i : (0 < count)%nat → 0 ≤ share count i ≤ 100.
Proof.
  intros Hc. unfold share.
  pose proof (Z.div_mod 100 (Z.of_nat count) ltac:(lia)).
  pose proof (Z.mod_pos_bound 100 (Z.of_nat count) ltac:(lia)).
  assert (0 ≤ 100 `div` Z.of_nat count) by (apply Z.div_pos; lia).
  case_decide; nia.
Qed.

(** C3. [AllocatePercentage(percentage, node)], when the new running total
    does not exceed 100 and [node] is a registered direct child, succeeds;
    it assigns to [node] exactly the [percentage] contiguous slots that start
    at the current running total (every other slot keeps its owner), adds
    [percentage] to the percentage recorded for [node] (a [size_t] addition,
    exact whenever the sum is representable; the records of the other
    children are kept) and advances the running total by [percentage]. *)
Theorem AllocatePercentage_spec (b : BranchT) (percentage : Z) (node : ptr) :
  Branch_wf b → 0 ≤ percentage →
  m_lastAllocated b + percentage ≤ 100 →
  node ∈ children b →
  ∃ b', AllocatePercentage percentage node b = Ok b' ∧
    m_lastAllocated b' = m_lastAllocated b + percentage ∧
    (∀ i : nat,
       m_percentageAllocations b' !! i =
       if decide (m_lastAllocated b ≤ Z.of_nat i < m_lastAllocated b + percentage)
       then Some (Some node) else m_percentageAllocations b !! i) ∧
    percentage_of b' node = size_t_wrap (percentage_of b node + percentage) ∧
    (percentage_of b node + percentage < size_t_modulus →
       percentage_of b' node = percentage_of b node + percentage) ∧
    (∀ other, other ≠ node → percentage_of b' other = percentage_of b other) ∧
    m_nodes b' = m_nodes b.
Proof.
  intros [Hlen Hlast _ _ Hrange] Hp Hsum Hin.
  eexists. split; [by apply AllocatePercentage_Ok; try lia|]. simpl.
  split; [done|]. split; [|split; [|split; [|split]]].
  - intros i. rewrite assign_slots_lookup by lia.
    repeat case_decide; try done; lia.
  - unfold percentage_of; simpl. unfold record_allocation; simpl.
    by rewrite lookup_insert_eq.
  - intros Hfit. unfold percentage_of; simpl. unfold record_allocation; simpl.
    rewrite lookup_insert_eq. simpl. apply size_t_wrap_small.
    destruct (Hrange node). unfold percentage_of in *. split; lia.
  - intros other Hne. unfold percentage_of; simpl.
    unfold record_allocation; simpl. by rewrite lookup_insert_ne.
  - done.
Qed.

(** C5. [SpreadPercentage] on a Branch with N ≥ 1 (distinct) children whose
    running total is zero succeeds and leaves the running total at exactly
    100; the child at position [i] of the insertion order is allocated
    [100 / N] percent, plus one if [i < 100 mod N]: it owns that many slots
    of the table, and that much is added to its recorded percentage. *)
Theorem SpreadPercentage_uniform (b : BranchT) :
  Branch_wf b → m_lastAllocated b = 0 → m_nodes b ≠ [] → NoDup (children b) →
  ∃ b', SpreadPercentage b = Ok b' ∧
    m_lastAllocated b' = 100 ∧
    ∀ (i : nat) (node : ptr), children b !! i = Some node →
      let N := length (m_nodes b) in
      (share N i = 100 `div` Z.of_nat N ∨ share N i = 100 `div` Z.of_nat N + 1) ∧
      (share N i = 100 `div` Z.of_nat N + 1 ↔ Z.of_nat i < 100 `mod` Z.of_nat N) ∧
      Z.of_nat (slots_owned b' node) = share N i ∧
      percentage_of b' node = size_t_wrap (percentage_of b node + share N i) ∧
      (percentage_of b node = 0 → percentage_of b' node = share N i).
Proof.
  intros [Hlen _ _ _ _] Hlast Hne Hnd.
  eexists. split; [by apply SpreadPercentage_Ok|]. simpl. split; [done|].
  intros i node Hi. cbv zeta. set (N := length (m_nodes b)).
  assert (children b ≠ []) as Hne' by (unfold children; by destruct (m_nodes b)).
  assert (length (children b) = N) as HN by apply length_fmap.
  assert (0 < N)%nat as HNpos by (subst N; destruct (m_nodes b); simpl; [done|lia]).
  pose proof (share_spread_calls _ _ _ Hnd Hi) as Hshare. rewrite HN in Hshare.
  pose proof (share_range N i HNpos) as Hsr.
  assert (node ∈ (spread_calls (children b)).*1) as Hcalled.
  { unfold spread_calls. rewrite fmap_app. apply elem_of_app. left.
    rewrite <- list_fmap_compose. simpl. rewrite list_fmap_id.
    by eapply list_elem_of_lookup_2. }
  assert (percentage_of
    {| branch_base := branch_base b; m_nodes := m_nodes b;
       m_nodesPercentageMap :=
         foldl record_allocation (m_nodesPercentageMap b) (spread_calls (children b));
       m_percentageAllocations := slots_of (spread_calls (children b));
       m_lastAllocated := 100 |} node =
    size_t_wrap (percentage_of b node + share N i)) as Hpct.
  { unfold percentage_of; simpl. rewrite record_allocations_lookup.
    by rewrite decide_True, Hshare by done. }
  split; [|split; [|split; [|split]]].
  - unfold share. case_decide; [right|left]; lia.
  - unfold share. case_decide; split; intros; try done; lia.
  - unfold slots_owned; simpl. rewrite slots_of_owned.
    + rewrite Hshare. lia.
    + eapply Forall_impl; [by apply spread_calls_valid|]. by intros ? [??].
  - done.
  - intros Hzero. rewrite Hpct, Hzero. apply size_t_wrap_small, size_t_percent. lia.
Qed.

(** C10. The first step of [SpreadPercentage] divides 100 by the number of
    children: the operation is undefined exactly on a childless Branch, so
    with at least one child the division's error branch is not reached. *)
Theorem SpreadPercentage_undefined_iff (b : BranchT) :
  SpreadPercentage b = Undefined ↔ m_nodes b = [].
Proof.
  unfold SpreadPercentage. split.
  - intros Hundef. destruct (decide (m_nodes b = [])) as [|Hne]; [done|].
    exfalso.
    rewrite bool_decide_eq_false_2 in Hundef
      by (destruct (m_nodes b); simpl; [done|lia]).
    rewrite allocate_each_eq in Hundef.
    destruct (allocate_all _ b) as [b1| |] eqn:Hfirst.
    + rewrite res_bind_Ok in Hundef. case_bool_decide; [|done].
      rewrite allocate_remainder_eq in Hundef by apply size_t_wrap_range.
      by apply allocate_all_defined in Hundef.
    + done.
    + by apply allocate_all_defined in Hfirst.
  - intros ->. done.
Qed.

(** ** The invariant is kept by the other operations *)

Lemma allocate_all_wf allocs (b b' : BranchT) :
  Forall (λ a, is_size_t a.2) allocs → Branch_wf b →
  allocate_all allocs b = Ok b' → Branch_wf b'.
Proof.
  intros Hall. revert b. induction Hall as [|[node p] allocs Hp _ IH];
    intros b Hwf; simpl.
  - by intros [= <-].
  - destruct (AllocatePercentage p node b) as [b1| |] eqn:Hcall; [|done..].
    rewrite res_bind_Ok. apply IH. by eapply AllocatePercentage_wf.
Qed.

Lemma SpreadPercentage_wf (b b' : BranchT) :
  Branch_wf b → SpreadPercentage b = Ok b' → Branch_wf b'.
Proof.
  intros Hwf. unfold SpreadPercentage.
  case_bool_decide as Hcount; [done|].
  assert (0 < Z.of_nat (length (m_nodes b))) as Hpos by lia.
  rewrite allocate_each_eq.
  destruct (allocate_all _ b) as [b1| |] eqn:Hfirst; [|done..].
  rewrite res_bind_Ok.
  assert (Branch_wf b1) as Hwf1.
  { eapply allocate_all_wf; [|done..]. apply Forall_fmap, Forall_forall.
    intros node _. simpl. apply size_t_percent.
    pose proof (Z.div_pos 100 _ ltac:(lia) Hpos).
    pose proof (Z.div_le_upper_bound 100 _ 100 Hpos ltac:(lia)). lia. }
  case_bool_decide; [|by intros [= <-]].
  rewrite allocate_remainder_eq by apply size_t_wrap_range.
  apply allocate_all_wf; [|done].
  apply Forall_fmap, Forall_forall. intros node _. simpl.
  apply size_t_percent. lia.
Qed.

Lemma reset_map_lookup (m : gmap ptr Z) (nodes : list TreeNode) node :
  foldl (λ m n, <[addr n := 0]> m) m nodes !! node =
  if decide (node ∈ addr <$> nodes) then Some 0 else m !! node.
Proof.
  revert m. induction nodes as [|n nodes IH]; intros m; [done|].
  rewrite fmap_cons. simpl foldl. rewrite IH.
  destruct (decide (node ∈ addr <$> nodes)).
  - by rewrite decide_True by (by right).
  - destruct (decide (addr n = node)) as [Heq|Hne].
    + rewrite Heq, lookup_insert_eq. by rewrite decide_True by left.
    + rewrite lookup_insert_ne by done.
      rewrite decide_False; [done|]. by intros [?|?]%elem_of_cons.
Qed.

Lemma ResetAllocations_node_addr t : addr (ResetAllocations_node t) = addr t.
Proof. by destruct t. Qed.

Lemma ResetAllocations_children (b : BranchT) :
  children (ResetAllocations b) = children b.
Proof.
  unfold children, ResetAllocations; simpl. rewrite <- list_fmap_compose.
  apply list_fmap_ext. intros ? n _. apply ResetAllocations_node_addr.
Qed.

Lemma ResetAllocations_wf (b : BranchT) :
  Branch_wf b → Branch_wf (ResetAllocations b).
Proof.
  intros [Hlen Hlast Hown Hdom Hrange]. split.
  - simpl. by rewrite length_fmap.
  - simpl. lia.
  - simpl. intros i Hi. lia.
  - intros node. rewrite ResetAllocations_children. simpl.
    rewrite reset_map_lookup. case_decide; [done|]. apply Hdom.
  - intros node. unfold percentage_of. simpl. rewrite reset_map_lookup.
    case_decide; [|apply Hrange]. apply size_t_percent. simpl. lia.
Qed.

Lemma ResetAllocations_node_wf t : tree_wf t → tree_wf (ResetAllocations_node t).
Proof.
  induction t as [l|b IH] using TreeNode_tree_ind; intros Hwf; simpl.
  - constructor.
  - inversion Hwf as [|b' Hb Hnodes]; subst. constructor.
    + by apply ResetAllocations_wf.
    + simpl. apply Forall_fmap.
      rewrite Forall_forall in IH, Hnodes. apply Forall_forall.
      intros n Hn. simpl. by apply IH, Hnodes.
Qed.

(** ** Weighted selection: proofs *)

Lemma draw_range (x : N) : 0 ≤ Z.of_N x `rem` 100 < 100.
Proof. apply Z.rem_bound_pos; lia. Qed.

(** C2. When a random node is requested, [getRandomNode] throws (the
    exception of a running total that is not 100) if and only if the
    running total of the Branch is not exactly 100; when it is 100 the
    selection does not throw and yields a registered child. *)
Theorem getRandomNode_spec (b : BranchT) (g : rand_state) :
  Branch_wf b →
  ((∃ e, getRandomNode b g = Throw e) ↔ m_lastAllocated b ≠ 100) ∧
  (m_lastAllocated b ≠ 100 →
     getRandomNode b g =
     Throw (SumPercentNot100 (GetName (branch_base b)) (m_lastAllocated b))) ∧
  (m_lastAllocated b = 100 →
     ∃ child g', getRandomNode b g = Ok (Some (addr child), g') ∧
                 child ∈ m_nodes b).
Proof.
  intros [Hlen Hlast Hown Hdom Hrange]. unfold getRandomNode.
  destruct (rand g) as [x g'] eqn:Hrand.
  pose proof (draw_range x) as Hd.
  case_bool_decide as H100.
  - split; [split; eauto|]. split; [done|]. intros ?. done.
  - assert (m_lastAllocated b = 100) as Heq by lia.
    destruct (Hown (Z.to_nat (Z.of_N x `rem` 100)) ltac:(lia))
      as (node & Hslot & Hin).
    rewrite Hslot.
    apply list_elem_of_fmap in Hin as (child & -> & Hchild).
    split; [split; [by intros [? ?]|done]|]. split; [done|]. eauto.
Qed.

(** ** The executable checks are sound *)

Lemma Branch_wf_check_sound (b : BranchT) :
  Branch_wf_check b = true → Branch_wf b.
Proof.
  unfold Branch_wf_check. rewrite !andb_true_iff, !bool_decide_eq_true.
  rewrite !forallb_forall.
  intros [[[Hlen Hlast] Hslots] Hmap]. split; [done|done|..].
  - intros i Hi.
    destruct (m_percentageAllocations b !! i) as [slot|] eqn:Hslot.
    2:{ apply lookup_ge_None in Hslot. lia. }
    assert (take (Z.to_nat (m_lastAllocated b)) (m_percentageAllocations b) !! i
            = Some slot) as Htake by (rewrite lookup_take_lt; [done|lia]).
    apply list_elem_of_lookup_2, list_elem_of_In, Hslots in Htake.
    destruct slot as [node|]; [|done].
    apply bool_decide_eq_true in Htake. eauto.
  - intros node [v Hv]. apply elem_of_map_to_list, list_elem_of_In, Hmap in Hv.
    apply andb_true_iff in Hv as [Hv _]. by apply bool_decide_eq_true in Hv.
  - intros node. unfold percentage_of.
    destruct (m_nodesPercentageMap b !! node) as [v|] eqn:Hv; simpl.
    + apply elem_of_map_to_list, list_elem_of_In, Hmap in Hv.
      apply andb_true_iff in Hv as [_ Hv]. by apply bool_decide_eq_true in Hv.
    + apply size_t_percent. lia.
Qed.

Lemma has_child_check_sound (b : BranchT) : has_child_check b = true → has_child b.
Proof. unfold has_child_check, has_child. by destruct (m_nodes b). Qed.

Lemma every_branch_check_sound (P : BranchT → Prop) check :
  (∀ b, check b = true → P b) →
  ∀ t, every_branch_check check t = true → every_branch P t.
Proof.
  intros Hsound t. induction t as [l|b IH] using TreeNode_tree_ind; simpl.
  - constructor.
  - rewrite andb_true_iff, forallb_forall. intros [Hb Hnodes].
    constructor; [by apply Hsound|].
    rewrite Forall_forall in IH. apply Forall_forall. intros n Hn.
    apply IH; [done|]. by apply Hnodes, list_elem_of_In.
Qed.

(** ** Recursive spreading and resetting: proofs *)

Lemma res_mapM_Forall2 {A B} (f : A → res B) (R : A → B → Prop) (l : list A) :
  Forall (λ a, ∃ b, f a = Ok b ∧ R a b) l →
  ∃ l', res_mapM f l = Ok l' ∧ Forall2 R l l'.
Proof.
  induction 1 as [|a l (b & Hb & HR) _ (l' & Hl' & HR')]; simpl.
  - by exists [].
  - exists (b :: l'). rewrite Hb, res_bind_Ok, Hl', res_bind_Ok. by split; [|constructor].
Qed.

Lemma res_mapM_cons {A B} (f : A → res B) a l :
  res_mapM f (a :: l) = f a ≫= λ b, res_mapM f l ≫= λ bs, Ok (b :: bs).
Proof. reflexivity. Qed.

Lemma every_branch_inv P (b : BranchT) :
  every_branch P (Branch b) → P b ∧ Forall (every_branch P) (m_nodes b).
Proof. by inversion 1. Qed.

Lemma SpreadPercentageOnAllNotSetNodes_node_spec t :
  tree_wf t → every_branch has_child t →
  ∃ t', SpreadPercentageOnAllNotSetNodes_node t = Ok t' ∧ spread_unset t t'.
Proof.
  induction t as [l|b IH] using TreeNode_tree_ind; intros Hwf Hchild.
  - exists (Leaf l). split; [done|constructor].
  - apply every_branch_inv in Hwf as [Hwf Hwfs].
    apply every_branch_inv in Hchild as [Hchild Hchilds].
    assert (∃ nodes', res_mapM SpreadPercentageOnAllNotSetNodes_node (m_nodes b)
                        = Ok nodes' ∧ Forall2 spread_unset (m_nodes b) nodes')
      as (nodes' & Hnodes & Hrel).
    { apply res_mapM_Forall2.
      rewrite Forall_forall in IH, Hwfs, Hchilds. apply Forall_forall.
      intros n Hn. by apply IH; [|apply Hwfs|apply Hchilds]. }
    assert (∃ b1, (if bool_decide (m_lastAllocated b = 0)
                   then SpreadPercentage b else Ok b) = Ok b1 ∧
                  if decide (m_lastAllocated b = 0)
                  then SpreadPercentage b = Ok b1 else b1 = b)
      as (b1 & Hb1 & Hspec).
    { case_bool_decide; case_decide; try done; [|by eauto].
      eexists. split; by apply SpreadPercentage_Ok; [| |apply Hwf]. }
    exists (Branch (with_nodes b1 nodes')). split; [|by constructor].
    simpl. unfold SpreadPercentageOnAllNotSetNodes_with.
    by rewrite Hb1, res_bind_Ok, Hnodes, !res_bind_Ok.
Qed.

(** C6. [SpreadPercentageOnAllNotSetNodes] returns, and the tree it leaves
    is [spread_unset]: [SpreadPercentage] has been applied to this Branch
    if its running total was zero and, recursively, to every descendant
    Branch whose running total was zero, and every Branch with a nonzero
    running total has kept its map, its slot table and its running total. *)
Theorem SpreadPercentageOnAllNotSetNodes_spec (b : BranchT) :
  tree_wf (Branch b) → every_branch has_child (Branch b) →
  ∃ b', SpreadPercentageOnAllNotSetNodes b = Ok b' ∧
        spread_unset (Branch b) (Branch b').
Proof.
  intros Hwf Hchild.
  destruct (SpreadPercentageOnAllNotSetNodes_node_spec (Branch b) Hwf Hchild)
    as (t' & Hrun & Hrel).
  change (SpreadPercentageOnAllNotSetNodes b ≫= (λ b', Ok (Branch b')) = Ok t')
    in Hrun.
  destruct (SpreadPercentageOnAllNotSetNodes b) as [b'| |]; [|done..].
  rewrite res_bind_Ok in Hrun. injection Hrun as <-. eauto.
Qed.

Lemma SpreadPercentage_childless (b : BranchT) :
  m_nodes b = [] → SpreadPercentage b = Undefined.
Proof. unfold SpreadPercentage. by intros ->. Qed.

Lemma freshly_built_addr t t0 : freshly_built t t0 → addr t0 = addr t.
Proof.
  inversion 1 as [|b b0 Hbase]; [done|]. unfold addr; simpl. by rewrite Hbase.
Qed.

Lemma freshly_built_children nodes nodes0 :
  Forall2 freshly_built nodes nodes0 → addr <$> nodes0 = addr <$> nodes.
Proof.
  induction 1 as [|n n0 nodes nodes0 Hn _ IH]; [done|].
  rewrite !fmap_cons, IH. f_equal. by apply freshly_built_addr.
Qed.

Lemma spread_calls_fst (nodes : list ptr) k :
  k ∈ (spread_calls nodes).*1 ↔ k ∈ nodes.
Proof.
  unfold spread_calls. rewrite fmap_app, <- !list_fmap_compose. simpl.
  rewrite !list_fmap_id, elem_of_app. split; [|by left].
  intros [?|?]; [done|]. by eapply subseteq_take.
Qed.

(** After a reset and on a fresh Branch the spread records the same map. *)
Lemma spread_map_reset_fresh (b : BranchT) :
  Branch_wf b →
  foldl record_allocation (m_nodesPercentageMap (ResetAllocations b))
    (spread_calls (children b)) =
  foldl record_allocation ∅ (spread_calls (children b)).
Proof.
  intros Hwf. apply map_eq. intros k.
  rewrite !record_allocations_lookup_raw. simpl.
  rewrite reset_map_lookup, lookup_empty. fold (children b).
  destruct (decide (k ∈ children b)) as [Hk|Hk].
  - by rewrite !decide_True by (by apply spread_calls_fst).
  - rewrite !decide_False by (by rewrite spread_calls_fst).
    destruct (m_nodesPercentageMap b !! k) eqn:Hlook; [|done].
    exfalso. apply Hk. apply Hwf. by rewrite Hlook.
Qed.

Lemma ResetAllocations_then_spread_node t :
  tree_wf t → ∀ t0, freshly_built t t0 →
  SpreadPercentageOnAllNotSetNodes_node (ResetAllocations_node t) =
  SpreadPercentageOnAllNotSetNodes_node t0.
Proof.
  induction t as [l|b IH] using TreeNode_tree_ind; intros Hwf t0 Hfresh.
  - by inversion Hfresh.
  - apply every_branch_inv in Hwf as [Hwf Hwfs].
    inversion Hfresh as [|b' b0 Hbase Hkids Hmap Hlen Hlast]; subst b' t0.
    pose proof (freshly_built_children _ _ Hkids) as Hchildren.
    fold (children b0) in Hchildren. fold (children b) in Hchildren.
    assert (res_mapM SpreadPercentageOnAllNotSetNodes_node
              (ResetAllocations_node <$> m_nodes b) =
            res_mapM SpreadPercentageOnAllNotSetNodes_node (m_nodes b0))
      as Hnodes.
    { clear Hfresh Hchildren. induction Hkids as [|n n0 nodes nodes0 Hn _ IHk]; [done|].
      apply Forall_cons in IH as [IHn IH]. apply Forall_cons in Hwfs as [Hwfn Hwfs].
      rewrite fmap_cons, !res_mapM_cons.
      by rewrite (IHn Hwfn _ Hn), IHk. }
    change (SpreadPercentageOnAllNotSetNodes (ResetAllocations b)
              ≫= (λ b', Ok (Branch b')) =
            SpreadPercentageOnAllNotSetNodes b0 ≫= (λ b', Ok (Branch b'))).
    f_equal.
    unfold SpreadPercentageOnAllNotSetNodes,
      SpreadPercentageOnAllNotSetNodes_with.
    rewrite !bool_decide_eq_true_2 by done.
    destruct (decide (m_nodes b = [])) as [Hnone|Hsome].
    + rewrite (SpreadPercentage_childless b0)
        by (rewrite Hnone in Hkids; by inversion Hkids).
      by rewrite SpreadPercentage_childless by (simpl; by rewrite Hnone).
    + rewrite (SpreadPercentage_Ok b0); [|done| |done].
      2:{ intros Hnil. rewrite Hnil in Hkids. by inversion Hkids. }
      rewrite (SpreadPercentage_Ok (ResetAllocations b));
        [|done|simpl; by destruct (m_nodes b)
         |simpl; rewrite length_fmap; apply Hwf].
      rewrite !res_bind_Ok. change (m_nodes (ResetAllocations b))
        with (ResetAllocations_node <$> m_nodes b).
      rewrite Hnodes. destruct (res_mapM _ (m_nodes b0)); [|done..].
      rewrite !res_bind_Ok. unfold with_nodes; simpl.
      rewrite ResetAllocations_children, Hchildren, Hbase, Hmap.
      do 2 f_equal. apply (spread_map_reset_fresh b Hwf).
Qed.

Lemma freshly_built_wf t : ∀ t0, freshly_built t t0 → tree_wf t0.
Proof.
  induction t as [l|b IH] using TreeNode_tree_ind; intros t0 Hfresh.
  - inversion Hfresh. constructor.
  - inversion Hfresh as [|b' b0 Hbase Hkids Hmap Hlen Hlast]; subst b' t0.
    constructor.
    + split; [done|lia|intros i Hi; lia| |].
      * intros node [? Hsome]. by rewrite Hmap, lookup_empty in Hsome.
      * intros node. unfold percentage_of. rewrite Hmap, lookup_empty.
        apply size_t_percent. simpl. lia.
    + clear Hfresh. induction Hkids as [|n n0 nodes nodes0 Hn _ IHk]; [done|].
      apply Forall_cons in IH as [IHn IH]. constructor; [by apply IHn|by apply IHk].
Qed.

Lemma freshly_built_has_child t :
  every_branch has_child t → ∀ t0, freshly_built t t0 →
  every_branch has_child t0.
Proof.
  induction t as [l|b IH] using TreeNode_tree_ind; intros Hchild t0 Hfresh.
  - inversion Hfresh. constructor.
  - apply every_branch_inv in Hchild as [Hchild Hchilds].
    inversion Hfresh as [|b' b0 Hbase Hkids Hmap Hlen Hlast]; subst b' t0.
    constructor.
    + unfold has_child in *. intros Hnil. rewrite Hnil in Hkids.
      by inversion Hkids.
    + clear Hfresh Hchild. induction Hkids as [|n n0 nodes nodes0 Hn _ IHk]; [done|].
      apply Forall_cons in IH as [IHn IH].
      apply Forall_cons in Hchilds as [Hc Hcs].
      constructor; [by apply IHn|by apply IHk].
Qed.

(** C7. For every tree, [ResetAllocations] on a Branch followed by
    [SpreadPercentageOnAllNotSetNodes] returns, and leaves exactly the tree
    that the same calls leave of the tree as freshly built (the same nodes,
    never explicitly allocated): the same slot table, per-child percentages
    and running total at every Branch of the subtree. *)
Theorem ResetAllocations_then_spread (b b0 : BranchT) :
  tree_wf (Branch b) → every_branch has_child (Branch b) →
  freshly_built (Branch b) (Branch b0) →
  ∃ b', SpreadPercentageOnAllNotSetNodes (ResetAllocations b) = Ok b' ∧
        SpreadPercentageOnAllNotSetNodes b0 = Ok b'.
Proof.
  intros Hwf Hchild Hfresh.
  pose proof (ResetAllocations_then_spread_node _ Hwf _ Hfresh) as Heq.
  destruct (SpreadPercentageOnAllNotSetNodes_node_spec (Branch b0))
    as (t' & Hrun & _).
  { by eapply freshly_built_wf. }
  { by eapply freshly_built_has_child. }
  rewrite Hrun in Heq.
  change (SpreadPercentageOnAllNotSetNodes (ResetAllocations b)
            ≫= (λ b', Ok (Branch b')) = Ok t') in Heq.
  change (SpreadPercentageOnAllNotSetNodes b0 ≫= (λ b', Ok (Branch b')) = Ok t')
    in Hrun.
  destruct (SpreadPercentageOnAllNotSetNodes (ResetAllocations b)) as [b1| |];
    [|done..].
  destruct (SpreadPercentageOnAllNotSetNodes b0) as [b2| |]; [|done..].
  rewrite res_bind_Ok in Heq, Hrun. exists b1. split; [done|]. congruence.
Qed.

(** ** Name lookup and parent link: theorems *)

Lemma head_filter_first {A} (P : A → Prop) `{!∀ x, Decision (P x)}
    (l : list A) (i : nat) (d : A) :
  l !! i = Some d → P d →
  (∀ (j : nat) e, (j < i)%nat → l !! j = Some e → ¬ P e) →
  head (filter P l) = Some d.
Proof.
  revert i. induction l as [|a l IH]; intros i Hi Hd Hfirst; [done|].
  rewrite filter_cons. destruct i as [|i]; simpl in Hi.
  - injection Hi as ->. by rewrite decide_True.
  - rewrite decide_False by (apply (Hfirst 0%nat); [lia|done]).
    apply (IH i); [done..|]. intros j e Hj He.
    apply (Hfirst (S j)); [lia|done].
Qed.

Lemma filter_nil_iff_local {A} (P : A → Prop) `{!∀ x, Decision (P x)}
    (l : list A) :
  filter P l = [] ↔ ∀ a, a ∈ l → ¬ P a.
Proof.
  induction l as [|a l IH]; [by split; [intros _ ? ?%elem_of_nil|]|].
  rewrite filter_cons. case_decide as Ha.
  - split; [done|]. intros Hnone. exfalso. apply (Hnone a); [left|done].
  - rewrite IH. split.
    + intros Hl e [->|He]%elem_of_cons; [done|by apply Hl].
    + intros Hl e He. apply Hl. by right.
Qed.

Lemma head_filter_none {A} (P : A → Prop) `{!∀ x, Decision (P x)} (l : list A) :
  (∀ a, a ∈ l → ¬ P a) → head (filter P l) = None.
Proof.
  induction l as [|a l IH]; intros Hnone; [done|].
  rewrite filter_cons, decide_False by (apply Hnone; left).
  apply IH. intros e He. apply Hnone. by right.
Qed.

(** C8. [GetNodeByName(name)] on any node returns the first node, in
    self-first depth-first pre-order of the subtree, whose name equals
    [name], and absent when no node of the subtree has that name; on a
    node with its own name it returns that node, and with the name of a
    descendant at any depth it returns that descendant (the first node to
    bear the name in pre-order). *)
Theorem GetNodeByName_spec (t : TreeNode) (name : NameString) :
  GetNodeByName t name = head (filter (λ n, name_of n = name) (preorder t)) ∧
  GetNodeByName t (name_of t) = Some t ∧
  ((∀ n, n ∈ preorder t → name_of n ≠ name) → GetNodeByName t name = None) ∧
  (∀ (i : nat) (d : TreeNode), preorder t !! i = Some d →
     (∀ (j : nat) e, (j < i)%nat → preorder t !! j = Some e →
        name_of e ≠ name_of d) →
     GetNodeByName t (name_of d) = Some d).
Proof.
  split; [apply GetNodeByName_head_filter|]. split; [|split].
  - rewrite GetNodeByName_head_filter.
    destruct (preorder_head t) as [rest ->].
    by rewrite filter_cons, decide_True.
  - intros Hnone. rewrite GetNodeByName_head_filter.
    by apply head_filter_none.
  - intros i d Hi Hfirst. rewrite GetNodeByName_head_filter.
    by apply (head_filter_first _ _ i).
Qed.

(** C9 (the code departs from the claim).  A node that was just
    constructed and never passed to [AddNode] has had no value given to
    [m_parent]: [GetParent] returns whatever the storage held, which is
    the null pointer only if the storage happened to hold it. *)
Theorem GetParent_after_construction (self : ptr) (indeterminate : option ptr)
    (slots : vec (option ptr) 100) (name : NameString) (val : ResultType) :
  GetParent (Branch (Branch_ctor self indeterminate slots name)) = indeterminate ∧
  GetParent (Leaf (Leaf_ctor self indeterminate name val)) = indeterminate.
Proof. done. Qed.

(** ** Routing: proofs *)

Lemma call_Get_child (nodes : list TreeNode) parent p child :
  head (filter (λ n, addr n = p) nodes) = Some child →
  call_Get ((λ node, (addr node, Get node parent)) <$> nodes) p =
  Get child parent.
Proof.
  induction nodes as [|n nodes IH]; [done|].
  rewrite filter_cons, fmap_cons. simpl call_Get.
  case_decide; case_bool_decide; try done.
  by intros [= ->].
Qed.

Lemma child_at_exists (b : BranchT) p :
  p ∈ children b → ∃ child, child_at b p = Some child ∧ addr child = p.
Proof.
  unfold children, child_at. induction (m_nodes b) as [|n nodes IH]; simpl.
  - by intros ?%elem_of_nil.
  - rewrite filter_cons. intros Hin. case_decide; [by eauto|].
    apply IH. by apply elem_of_cons in Hin as [?|?].
Qed.

Lemma draw_index (x : N) :
  Z.to_nat (Z.of_N x `rem` 100) = N.to_nat (x `mod` 100).
Proof.
  pose proof (draw_range x) as Hd. rewrite Z.rem_mod_nonneg in * by lia.
  apply Nat2Z.inj. by rewrite Z2Nat.id, N_nat_Z, N2Z.inj_mod by lia.
Qed.

Lemma Get_try_Attempt (b : BranchT) parent g :
  Branch_wf b → m_lastAllocated b = 100 →
  Attempt b parent g (Get_try b (vtable b parent) g).
Proof.
  intros Hwf H100. unfold Get_try, getRandomNode.
  rewrite bool_decide_eq_false_2 by (by intros ?).
  destruct (rand g) as [x g1] eqn:Hrand.
  pose proof (draw_range x) as Hd.
  destruct (wf_slots_owned b Hwf (Z.to_nat (Z.of_N x `rem` 100)) ltac:(lia))
    as (node & Hslot & Hin).
  destruct (child_at_exists b node Hin) as (child & Hchild & <-).
  rewrite Hslot, res_bind_Ok. unfold vtable.
  rewrite (call_Get_child _ _ _ child) by done.
  apply (Attempt_intro b parent g _ x g1 (N.to_nat (x `mod` 100)) child);
    rewrite <- ?draw_index; [done|done|lia|done..].
Qed.

Lemma Get_loop_spec (b : BranchT) parent (n : nat) g :
  Branch_wf b → m_lastAllocated b = 100 →
  let r := Get_loop n b (vtable b parent) g in
  (∃ (k : nat) g1 v g2, (k < n)%nat ∧ AbsentRun b parent k g g1 ∧
      Attempt b parent g1 (Ok (Some v, g2)) ∧ r = Ok (Some v, g2)) ∨
  (∃ g', AbsentRun b parent n g g' ∧ r = Ok (None, g')) ∨
  (∃ (k : nat) g1, (k < n)%nat ∧ AbsentRun b parent k g g1 ∧
      Attempt b parent g1 r ∧ ¬ is_Ok r).
Proof.
  intros Hwf H100. revert g. induction n as [|n IH]; intros g; simpl.
  - right; left. exists g. split; [constructor|done].
  - pose proof (Get_try_Attempt b parent g Hwf H100) as Htry.
    destruct (Get_try b (vtable b parent) g) as [[[v|] g1]| |] eqn:Hres.
    + left. exists 0%nat, g, v, g1. split; [lia|]. split; [constructor|done].
    + rewrite res_bind_Ok. destruct (IH g1) as
        [(k & g2 & v & g3 & Hk & Hrun & Hhit & Hr)
        |[(g' & Hrun & Hr)|(k & g2 & Hk & Hrun & Hfail & Hr)]].
      * left. exists (S k), g2, v, g3. split; [lia|].
        split; [by econstructor|done].
      * right; left. exists g'. split; [by econstructor|done].
      * right; right. exists (S k), g2. split; [lia|].
        split; [by econstructor|done].
    + right; right. exists 0%nat, g. split; [lia|]. split; [constructor|].
      split; [done|]. by intros [? ?].
    + right; right. exists 0%nat, g. split; [lia|]. split; [constructor|].
      split; [done|]. by intros [? ?].
Qed.

Lemma callable_check_sound rules :
  callable_check rules = true → Forall callable rules.
Proof.
  unfold callable_check. rewrite forallb_forall. intros Hall.
  apply Forall_forall. intros rule Hin%list_elem_of_In%Hall.
  unfold callable. by destruct (m_ruleFunction rule).
Qed.

Lemma routing_ready_check_sound t :
  routing_ready_check t = true → routing_ready t.
Proof.
  induction t as [l|b IH] using TreeNode_tree_ind; simpl.
  - intros ?. constructor. by apply callable_check_sound.
  - rewrite !andb_true_iff, bool_decide_eq_true, forallb_forall.
    intros [[[Hrules Hwf] H100] Hnodes].
    constructor; [by apply callable_check_sound
                 |by apply Branch_wf_check_sound|done|].
    rewrite Forall_forall in IH. apply Forall_forall. intros n Hn.
    apply IH; [done|]. by apply Hnodes, list_elem_of_In.
Qed.

Lemma allRulesPassed_callable rules parent :
  Forall callable rules → ∃ passed, allRulesPassed rules parent = Ok passed.
Proof.
  induction 1 as [|rule rules [f Hf] _ [passed IH]]; simpl; [by eauto|].
  unfold Check. rewrite Hf, res_bind_Ok.
  destruct (f parent); simpl; eauto.
Qed.

Lemma child_at_elem_of (b : BranchT) p child :
  child_at b p = Some child → child ∈ m_nodes b.
Proof.
  unfold child_at. intros Hhead.
  assert (child ∈ filter (λ n, addr n = p) (m_nodes b)) as Hin.
  { destruct (filter _ (m_nodes b)); simplify_eq/=. left. }
  by apply list_elem_of_filter in Hin as [_ ?].
Qed.

(** On a tree ready for routing, [Get] returns: it neither throws nor
    meets undefined behaviour. *)
Lemma Get_returns t parent :
  routing_ready t → ∀ g, is_Ok (Get t parent g).
Proof.
  induction t as [l|b IH] using TreeNode_tree_ind; intros Hready g.
  - inversion Hready as [l' Hrules|]; subst. simpl. unfold Leaf_Get.
    destruct (allRulesPassed_callable _ parent Hrules) as [passed ->].
    rewrite res_bind_Ok. destruct passed; simpl; by eexists.
  - inversion Hready as [|b' Hrules Hwf H100 Hnodes]; subst. simpl.
    unfold Branch_Get_with. fold (vtable b parent).
    destruct (allRulesPassed_callable _ parent Hrules) as [passed ->].
    rewrite res_bind_Ok. generalize (Z.to_nat MAX_TRIES). intros n.
    destruct passed; simpl negb; cbv iota; [|by eexists]. revert g.
    induction n as [|n IHn]; intros g; simpl; [by eexists|].
    destruct (Get_try_Attempt b parent g Hwf H100)
      as [x g1 d child _ _ _ _ Hchild ->].
    apply child_at_elem_of in Hchild.
    rewrite Forall_forall in IH, Hnodes.
    destruct (IH child Hchild (Hnodes child Hchild) g1) as [[[v|] g2] ->];
      rewrite res_bind_Ok; [by eexists|apply IHn].
Qed.

(** C1. [Branch::Get(context)], for every context.  If one of the rules
    of the Branch fails, it returns absent and the generator is as it was,
    whatever the [Get] of the children would do: no child is called and no
    draw is made.  Otherwise, on a Branch whose
    running total is 100, it makes at most 100000 attempts, each of which
    draws an integer in [0, 100), looks up the owning child in the slot
    table and calls that child's [Get]: it returns the first result that is
    not absent, at once; it returns absent when all 100000 attempts
    returned absent; and an attempt in which the child's own [Get] raised
    ends the call with that outcome, which does not happen on a tree that
    is ready for routing: there the call returns. *)
Theorem Branch_Get_spec (b : BranchT) (parent : ParentOrder) (g : rand_state) :
  (allRulesPassed (m_rules (branch_base b)) parent = Ok false →
     Branch_Get b parent g = Ok (None, g) ∧
     ∀ children_Get, Branch_Get_with children_Get b parent g = Ok (None, g)) ∧
  (allRulesPassed (m_rules (branch_base b)) parent = Ok true →
   Branch_wf b → m_lastAllocated b = 100 →
     Retry_outcome b parent g (Branch_Get b parent g)) ∧
  (routing_ready (Branch b) → is_Ok (Branch_Get b parent g)).
Proof.
  split; [|split]; [| |intros Hready; by apply Get_returns].
  all: unfold Retry_outcome, Branch_Get; simpl; unfold Branch_Get_with;
    fold (vtable b parent).
  - by intros ->.
  - intros -> Hwf H100. rewrite res_bind_Ok. simpl negb. cbv iota.
    destruct (Get_loop_spec b parent (Z.to_nat MAX_TRIES) g Hwf H100)
      as [(k & g1 & v & g2 & Hk & Hrest)|[Hnone|(k & g1 & Hk & Hrest)]].
    + left. exists k, g1, v, g2. split; [lia|done].
    + right; left. done.
    + right; right. exists k, g1. split; [lia|done].
Qed.

(** * Further properties of the code *)

(** ** Rules *)

Definition passes (parent : ParentOrder) (rule : Rule) : Prop :=
  ∃ f, m_ruleFunction rule = Some f ∧ f parent = true.

Definition rejects (parent : ParentOrder) (rule : Rule) : Prop :=
  ∃ f, m_ruleFunction rule = Some f ∧ f parent = false.

Lemma allRulesPassed_app_passing parent (passing rest : list Rule) :
  Forall (passes parent) passing →
  allRulesPassed (passing ++ rest) parent = allRulesPassed rest parent.
Proof.
  induction 1 as [|rule passing (f & Hf & Hpass) _ IH]; [done|].
  simpl. unfold Check. by rewrite Hf, res_bind_Ok, Hpass.
Qed.

(** X1. [allRulesPassed] is the conjunction of the rules, evaluated in
    order and cut short at the first rule that fails: when every rule
    passes the result is true (in particular with no rule at all); a rule
    that rejects the order after rules that pass makes the result false,
    whatever follows it, even a rule that holds no function; and a rule
    that holds no function, reached after rules that pass, throws
    [bad_function_call]. *)
Theorem allRulesPassed_short_circuit (parent : ParentOrder)
    (passing rest : list Rule) (rule : Rule) :
  Forall (passes parent) passing →
  allRulesPassed passing parent = Ok true ∧
  (rejects parent rule →
     allRulesPassed (passing ++ rule :: rest) parent = Ok false) ∧
  (m_ruleFunction rule = None →
     allRulesPassed (passing ++ rule :: rest) parent = Throw bad_function_call).
Proof.
  intros Hpassing. split; [|split].
  - rewrite <- (app_nil_r passing). by rewrite allRulesPassed_app_passing.
  - intros (f & Hf & Hrej). rewrite allRulesPassed_app_passing by done.
    simpl. unfold Check. by rewrite Hf, res_bind_Ok, Hrej.
  - intros Hnone. rewrite allRulesPassed_app_passing by done.
    simpl. unfold Check. by rewrite Hnone.
Qed.

(** ** Routing on a Branch that is not configured *)

Lemma MAX_TRIES_succ : Z.to_nat MAX_TRIES = S (Z.to_nat (MAX_TRIES - 1)).
Proof. unfold MAX_TRIES. lia. Qed.

Lemma Branch_Get_unfold (b : BranchT) parent g :
  Branch_Get b parent g = Branch_Get_with (vtable b parent) b parent g.
Proof. reflexivity. Qed.

(** X2. [Branch::Get] on a Branch whose rules pass and whose running total
    is not 100 throws at its first attempt, with the exception of
    [getRandomNode], before any draw is made and before any child is
    called; this is the state [ResetAllocations] leaves a Branch in. *)
Theorem Branch_Get_not_configured (b : BranchT) (parent : ParentOrder)
    (g : rand_state) :
  allRulesPassed (m_rules (branch_base b)) parent = Ok true →
  (m_lastAllocated b ≠ 100 →
     ∀ children_Get,
       Branch_Get_with children_Get b parent g =
       Throw (SumPercentNot100 (GetName (branch_base b)) (m_lastAllocated b))) ∧
  Branch_Get (ResetAllocations b) parent g =
  Throw (SumPercentNot100 (GetName (branch_base b)) 0).
Proof.
  intros Hrules.
  assert (∀ (b' : BranchT) children_Get,
            allRulesPassed (m_rules (branch_base b')) parent = Ok true →
            m_lastAllocated b' ≠ 100 →
            Branch_Get_with children_Get b' parent g =
            Throw (SumPercentNot100 (GetName (branch_base b'))
                     (m_lastAllocated b'))) as Hthrow.
  { intros b' children_Get Hrules' Hne. unfold Branch_Get_with.
    rewrite Hrules', res_bind_Ok, MAX_TRIES_succ. simpl negb. cbv iota.
    cbn [Get_loop]. unfold Get_try, getRandomNode.
    by rewrite bool_decide_eq_true_2 by done. }
  split; [intros Hne children_Get; by apply Hthrow|].
  rewrite Branch_Get_unfold. by rewrite Hthrow.
Qed.

(** ** Allocation: guards and edge cases *)

(** X3. For a request that cannot overflow ([percentage] at most
    [SIZE_MAX - 100]), [AllocatePercentage] tests the budget first and the
    membership second: it throws the bad-allocation exception, carrying the
    sum, exactly when the running total plus the request exceeds 100; it
    throws the not-in-branch exception exactly when the sum fits and the
    node is not a child; and it returns exactly when the sum fits and the
    node is a child. *)
Theorem AllocatePercentage_guards (b : BranchT) (percentage : Z) (node : ptr) :
  Branch_wf b → 0 ≤ percentage → percentage ≤ SIZE_MAX - 100 →
  (AllocatePercentage percentage node b =
     Throw (BadPercentAllocation (GetName (branch_base b))
              (m_lastAllocated b + percentage))
   ↔ m_lastAllocated b + percentage > 100) ∧
  (AllocatePercentage percentage node b =
     Throw (NodeNotInBranch (GetName (branch_base b)))
   ↔ m_lastAllocated b + percentage ≤ 100 ∧ node ∉ children b) ∧
  (is_Ok (AllocatePercentage percentage node b)
   ↔ m_lastAllocated b + percentage ≤ 100 ∧ node ∈ children b).
Proof.
  intros [_ Hlast _ _ _] Hp Hmax. unfold AllocatePercentage.
  rewrite size_t_wrap_small
    by (unfold is_size_t, SIZE_MAX in *; rewrite size_t_modulus_eq in *; lia).
  destruct (decide (m_lastAllocated b + percentage > 100)) as [Hover|Hfits].
  { rewrite bool_decide_eq_true_2 by done. split; [|split]; split.
    - done.
    - done.
    - done.
    - intros [? _]. lia.
    - by intros [? ?].
    - intros [? _]. lia. }
  rewrite bool_decide_eq_false_2 by done.
  destruct (decide (node ∈ children b)) as [Hin|Hout].
  - rewrite bool_decide_eq_false_2 by (by intros ?). split; [|split]; split.
    + done.
    + intros ?. lia.
    + done.
    + by intros [_ ?].
    + intros _. split; [lia|done].
    + intros _. by eexists.
  - rewrite bool_decide_eq_true_2 by done. split; [|split]; split.
    + done.
    + intros ?. lia.
    + intros _. split; [lia|done].
    + done.
    + by intros [? ?].
    + by intros [_ ?].
Qed.

(** X4. A Branch without children cannot be configured: its running total
    is zero, every [AllocatePercentage] on it throws, [SpreadPercentage] is
    undefined, and [Get] throws whenever the rules of the Branch pass. *)
Theorem Branch_without_children (b : BranchT) (parent : ParentOrder)
    (g : rand_state) :
  Branch_wf b → m_nodes b = [] →
  m_lastAllocated b = 0 ∧
  (∀ percentage node, ∃ e, AllocatePercentage percentage node b = Throw e) ∧
  SpreadPercentage b = Undefined ∧
  (allRulesPassed (m_rules (branch_base b)) parent = Ok true →
     Branch_Get b parent g =
     Throw (SumPercentNot100 (GetName (branch_base b)) 0)).
Proof.
  intros Hwf Hnone.
  assert (m_lastAllocated b = 0) as Hzero.
  { destruct Hwf as [_ Hlast Hown _ _].
    destruct (decide (m_lastAllocated b = 0)) as [|Hne]; [done|].
    destruct (Hown 0%nat ltac:(lia)) as (node & _ & Hin).
    unfold children in Hin. rewrite Hnone in Hin. by apply elem_of_nil in Hin. }
  split; [done|]. split; [|split].
  - intros percentage node.
    apply (proj2 (AllocatePercentage_throws b percentage node)). right.
    unfold children. rewrite Hnone. apply not_elem_of_nil.
  - by apply SpreadPercentage_childless.
  - intros Hrules. rewrite Branch_Get_unfold. unfold Branch_Get_with.
    rewrite Hrules, res_bind_Ok, MAX_TRIES_succ. simpl negb. cbv iota.
    cbn [Get_loop]. unfold Get_try, getRandomNode.
    rewrite bool_decide_eq_true_2 by lia. by rewrite Hzero.
Qed.

(** X5. Registering a node is what makes it allocatable: within the budget,
    [AllocatePercentage] on a node that is not a child throws the
    not-in-branch exception, and after [AddNode] of that node the same call
    returns; [AddNode] itself leaves the running total, the slot table and
    the recorded percentages as they were, and the added child reports this
    Branch as its parent. *)
Theorem AddNode_then_AllocatePercentage (b : BranchT) (node : TreeNode)
    (percentage : Z) :
  Branch_wf b → 0 ≤ percentage → m_lastAllocated b + percentage ≤ 100 →
  addr node ∉ children b →
  AllocatePercentage percentage (addr node) b =
    Throw (NodeNotInBranch (GetName (branch_base b))) ∧
  (∃ b', AllocatePercentage percentage (addr node) (AddNode node b) = Ok b' ∧
         m_lastAllocated b' = m_lastAllocated b + percentage ∧
         percentage_of b' (addr node) = percentage) ∧
  m_lastAllocated (AddNode node b) = m_lastAllocated b ∧
  m_percentageAllocations (AddNode node b) = m_percentageAllocations b ∧
  (∀ child, percentage_of (AddNode node b) child = percentage_of b child) ∧
  (∃ added, last (m_nodes (AddNode node b)) = Some added ∧
            addr added = addr node ∧
            GetParent added = Some (this (branch_base b))).
Proof.
  intros Hwf Hp Hsum Hnot.
  assert (addr (SetParent (Some (this (branch_base b))) node) = addr node)
    as Haddr by (by destruct node).
  assert (addr node ∈ children (AddNode node b)) as Hin.
  { unfold children; simpl. rewrite fmap_app. apply elem_of_app. right.
    simpl. rewrite Haddr. left. }
  assert (percentage_of b (addr node) = 0) as Hzero.
  { unfold percentage_of.
    destruct (m_nodesPercentageMap b !! addr node) eqn:Hlook; [|done].
    exfalso. apply Hnot. apply Hwf. by rewrite Hlook. }
  split; [|split; [|split; [|split; [|split]]]]; try done.
  - unfold AllocatePercentage.
    rewrite size_t_wrap_small by (apply size_t_percent; destruct Hwf; lia).
    rewrite bool_decide_eq_false_2 by lia.
    by rewrite bool_decide_eq_true_2 by done.
  - eexists. split.
    + apply AllocatePercentage_Ok;
        [done|simpl; destruct Hwf; lia|simpl; lia|done].
    + simpl. split; [done|]. unfold percentage_of, record_allocation; simpl.
      rewrite lookup_insert_eq. simpl. fold (percentage_of b (addr node)).
      rewrite Hzero. apply size_t_wrap_small, size_t_percent.
      destruct Hwf. lia.
  - exists (SetParent (Some (this (branch_base b))) node). simpl.
    rewrite last_snoc. split; [done|]. split; [done|]. by destruct node.
Qed.

(** X6. [SpreadPercentage] is not to be called twice: on a Branch of at
    most 100 children whose running total is already 100 it throws the
    bad-allocation exception at its first call to [AllocatePercentage],
    with the sum [100 + 100 / N]; the guard [m_lastAllocated == 0] of
    [SpreadPercentageOnAllNotSetNodes] is what avoids it. *)
Theorem SpreadPercentage_again_throws (b : BranchT) :
  m_lastAllocated b = 100 → m_nodes b ≠ [] → (length (m_nodes b) ≤ 100)%nat →
  SpreadPercentage b =
  Throw (BadPercentAllocation (GetName (branch_base b))
           (100 + 100 `div` Z.of_nat (length (m_nodes b)))).
Proof.
  intros H100 Hne Hle. unfold SpreadPercentage.
  destruct (m_nodes b) as [|n nodes] eqn:Hnodes; [done|].
  set (count := Z.of_nat (length (n :: nodes))).
  assert (0 < count ≤ 100) as Hcount by (subst count; simpl in *; lia).
  rewrite bool_decide_eq_false_2 by lia.
  assert (1 ≤ 100 `div` count ≤ 100) as Hq.
  { split.
    - apply Z.div_le_lower_bound; lia.
    - apply Z.div_le_upper_bound; lia. }
  simpl allocate_each. unfold AllocatePercentage. rewrite H100.
  rewrite size_t_wrap_small by (apply size_t_percent_wide; lia).
  by rewrite bool_decide_eq_true_2 by lia.
Qed.

(** ** What [Get] can return *)

(** A path from a node down to a Leaf on which every node accepts the
    order: the rules of each node pass, each Branch on the way has its
    running total at 100, and each step goes to a child that owns a slot
    of the table. *)
Inductive accepting_path (parent : ParentOrder) : TreeNode → LeafT → Prop :=
| accepting_path_leaf l :
    allRulesPassed (m_rules (leaf_base l)) parent = Ok true →
    accepting_path parent (Leaf l) l
| accepting_path_branch b child l :
    allRulesPassed (m_rules (branch_base b)) parent = Ok true →
    m_lastAllocated b = 100 →
    child ∈ m_nodes b →
    Some (addr child) ∈ m_percentageAllocations b →
    accepting_path parent child l →
    accepting_path parent (Branch b) l.

Lemma call_Get_inv (nodes : list TreeNode) parent p g r :
  call_Get ((λ node, (addr node, Get node parent)) <$> nodes) p g = Ok r →
  ∃ child, child ∈ nodes ∧ addr child = p ∧ Get child parent g = Ok r.
Proof.
  induction nodes as [|n nodes IH]; [done|].
  rewrite fmap_cons. simpl call_Get. case_bool_decide as Heq.
  - intros Hget. exists n. split; [left|done].
  - intros Hget. destruct (IH Hget) as (child & Hin & Haddr & Hchild).
    exists child. split; [by right|done].
Qed.

Lemma Get_loop_sound (b : BranchT) parent (n : nat) g v g' :
  (∀ child, child ∈ m_nodes b → ∀ g1 v1 g2,
     Get child parent g1 = Ok (Some v1, g2) →
     ∃ l, accepting_path parent child l ∧ m_val l = v1) →
  Get_loop n b (vtable b parent) g = Ok (Some v, g') →
  m_lastAllocated b = 100 ∧
  ∃ child l, child ∈ m_nodes b ∧
             Some (addr child) ∈ m_percentageAllocations b ∧
             accepting_path parent child l ∧ m_val l = v.
Proof.
  intros IH. revert g. induction n as [|n IHn]; intros g; [done|].
  cbn [Get_loop]. unfold Get_try, getRandomNode.
  case_bool_decide as H100; [done|].
  assert (m_lastAllocated b = 100) as Heq by lia.
  destruct (rand g) as [x g1].
  destruct (m_percentageAllocations b !! _) as [[p|]|] eqn:Hslot; [| |done].
  - rewrite res_bind_Ok.
    destruct (call_Get (vtable b parent) p g1) as [[[v1|] g2]| |] eqn:Hcall;
      [| |done..].
    + rewrite res_bind_Ok. intros [= -> ->].
      apply call_Get_inv in Hcall as (child & Hin & <- & Hget).
      destruct (IH child Hin _ _ _ Hget) as (l & Hpath & Hval).
      split; [done|]. exists child, l. split; [done|].
      split; [by eapply list_elem_of_lookup_2|done].
    + rewrite res_bind_Ok. apply IHn.
  - rewrite !res_bind_Ok. apply IHn.
Qed.

(** X7. Whatever the draws, a value returned by [Get] is the value held by
    a Leaf of the subtree that is reached along an accepting path: the
    rules of the Leaf and of every Branch above it pass for the order, and
    every child on the way owns at least one slot of its parent's table.
    [Get] never returns the outcome of a node whose rules reject the
    order, nor of a child that was allocated nothing. *)
Theorem Get_result_sound (t : TreeNode) (parent : ParentOrder)
    (g g' : rand_state) (v : ResultType) :
  Get t parent g = Ok (Some v, g') →
  ∃ l, accepting_path parent t l ∧ m_val l = v.
Proof.
  revert g g' v. induction t as [l|b IH] using TreeNode_tree_ind;
    intros g g' v; simpl.
  - unfold Leaf_Get.
    destruct (allRulesPassed _ parent) as [[|]| |] eqn:Hrules; try done.
    rewrite res_bind_Ok. simpl. intros [= <- _].
    exists l. split; [by constructor|done].
  - unfold Branch_Get_with. fold (vtable b parent).
    destruct (allRulesPassed _ parent) as [[|]| |] eqn:Hrules; try done.
    rewrite res_bind_Ok. simpl negb. cbv iota. intros Hloop.
    apply Get_loop_sound in Hloop as (H100 & child & l & Hin & Hslot & Hpath & Hval).
    + exists l. split; [by econstructor|done].
    + intros child Hin g1 v1 g2 Hget. rewrite Forall_forall in IH.
      by apply (IH child Hin g1 g2 v1).
Qed.

(** ** Adding a rule *)

Lemma allRulesPassed_snoc_rejecting parent (rules : list Rule) rule :
  Forall callable rules → rejects parent rule →
  allRulesPassed (rules ++ [rule]) parent = Ok false.
Proof.
  intros Hcall (f & Hf & Hrej).
  induction Hcall as [|r rules [h Hh] _ IH]; simpl; unfold Check.
  - by rewrite Hf, res_bind_Ok, Hrej.
  - rewrite Hh, res_bind_Ok. by destruct (h parent).
Qed.

Lemma allRulesPassed_snoc_passing parent (rules : list Rule) rule :
  passes parent rule →
  allRulesPassed (rules ++ [rule]) parent = allRulesPassed rules parent.
Proof.
  intros (f & Hf & Hpass). induction rules as [|r rules IH]; simpl; unfold Check.
  - by rewrite Hf, res_bind_Ok, Hpass.
  - destruct (m_ruleFunction r) as [h|]; [|done].
    rewrite !res_bind_Ok. by destruct (h parent).
Qed.

Lemma Get_loop_ext (b b' : BranchT) children_Get (n : nat) g :
  GetName (branch_base b') = GetName (branch_base b) →
  m_lastAllocated b' = m_lastAllocated b →
  m_percentageAllocations b' = m_percentageAllocations b →
  Get_loop n b' children_Get g = Get_loop n b children_Get g.
Proof.
  intros Hname Hlast Hslots. revert g. induction n as [|n IH]; intros g; [done|].
  cbn [Get_loop]. unfold Get_try, getRandomNode. rewrite Hname, Hlast, Hslots.
  destruct (bool_decide _); [done|]. destruct (rand g) as [x g1].
  destruct (m_percentageAllocations b !! _) as [[p|]|]; [| |done].
  - rewrite res_bind_Ok.
    destruct (call_Get children_Get p g1) as [[[v|] g2]| |]; [done| |done..].
    rewrite res_bind_Ok. apply IH.
  - rewrite !res_bind_Ok. apply IH.
Qed.

Lemma Branch_Get_with_rejected children_Get (b : BranchT) parent g :
  allRulesPassed (m_rules (branch_base b)) parent = Ok false →
  Branch_Get_with children_Get b parent g = Ok (None, g).
Proof. unfold Branch_Get_with. by intros ->. Qed.

Lemma Branch_Get_with_ext children_Get (b b' : BranchT) parent g :
  allRulesPassed (m_rules (branch_base b')) parent =
    allRulesPassed (m_rules (branch_base b)) parent →
  GetName (branch_base b') = GetName (branch_base b) →
  m_lastAllocated b' = m_lastAllocated b →
  m_percentageAllocations b' = m_percentageAllocations b →
  Branch_Get_with children_Get b' parent g =
  Branch_Get_with children_Get b parent g.
Proof.
  intros Hrules Hname Hlast Hslots. unfold Branch_Get_with. rewrite Hrules.
  generalize (Z.to_nat MAX_TRIES). intros n.
  destruct (allRulesPassed (m_rules (branch_base b)) parent) as [passed| |];
    [|done..].
  rewrite !res_bind_Ok. destruct (negb passed); [done|].
  by apply Get_loop_ext.
Qed.

(** X8. [AddRule] appends to the conjunction.  On a node whose rules all
    hold a function, adding a rule that rejects the order makes [Get]
    return absent without a draw, on a Leaf as on a Branch; adding a rule
    that passes for the order leaves the result of [Get] as it was. *)
Theorem AddRule_Get (t : TreeNode) (rule : Rule) (parent : ParentOrder)
    (g : rand_state) :
  (Forall callable (m_rules (base t)) → rejects parent rule →
     Get (AddRule rule t) parent g = Ok (None, g)) ∧
  (passes parent rule → Get (AddRule rule t) parent g = Get t parent g).
Proof.
  split.
  - intros Hcall Hrej.
    pose proof (allRulesPassed_snoc_rejecting parent _ rule Hcall Hrej) as Hfalse.
    destruct t as [l|b].
    + simpl in *. unfold Leaf_Get; simpl. by rewrite Hfalse.
    + by apply Branch_Get_with_rejected.
  - intros Hpass.
    pose proof (allRulesPassed_snoc_passing parent (m_rules (base t)) rule Hpass)
      as Hsame.
    destruct t as [l|b].
    + simpl in *. unfold Leaf_Get; simpl. by rewrite Hsame.
    + by apply Branch_Get_with_ext.
Qed.

(** ** Adding a node and looking it up *)

Lemma head_filter_app_l {A} (P : A → Prop) `{!∀ x, Decision (P x)}
    (l k : list A) (a : A) :
  head (filter P l) = Some a → head (filter P (l ++ k)) = Some a.
Proof.
  rewrite filter_app. by destruct (filter P l).
Qed.

Lemma head_filter_is_Some {A} (P : A → Prop) `{!∀ x, Decision (P x)}
    (l : list A) (a : A) :
  a ∈ l → P a → is_Some (head (filter P l)).
Proof.
  intros Hin Hp.
  assert (a ∈ filter P l) as Hf by (by apply list_elem_of_filter).
  destruct (filter P l); [by apply elem_of_nil in Hf|by eexists].
Qed.

Lemma preorder_AddNode (b : BranchT) node :
  preorder (Branch (AddNode node b)) =
  Branch (AddNode node b) ::
    mjoin (preorder <$> m_nodes b) ++
    preorder (SetParent (Some (this (branch_base b))) node).
Proof.
  simpl. rewrite fmap_app, join_app. simpl. by rewrite app_nil_r.
Qed.

(** X9. [AddNode] then [GetNodeByName]: when no node of the tree under a
    Branch bears the name of the node that is added, looking that name up
    from the Branch returns the added node (with its parent link set); and
    a name that some node of the tree already bore still resolves to the
    node at the same address. *)
Theorem AddNode_then_GetNodeByName (b : BranchT) (node : TreeNode)
    (name : NameString) :
  ((∀ n, n ∈ preorder (Branch b) → name_of n ≠ name_of node) →
     GetNodeByName (Branch (AddNode node b)) (name_of node) =
     Some (SetParent (Some (this (branch_base b))) node)) ∧
  ((∃ n, n ∈ preorder (Branch b) ∧ name_of n = name) →
     addr <$> GetNodeByName (Branch (AddNode node b)) name =
     addr <$> GetNodeByName (Branch b) name).
Proof.
  rewrite !GetNodeByName_head_filter, preorder_AddNode.
  set (added := SetParent (Some (this (branch_base b))) node).
  assert (name_of added = name_of node) as Hname by (by destruct node).
  split.
  - intros Hfresh. rewrite filter_cons.
    rewrite decide_False.
    2:{ apply (Hfresh (Branch b)). simpl. left. }
    rewrite filter_app.
    rewrite (proj2 (filter_nil_iff_local _ (mjoin (preorder <$> m_nodes b)))).
    2:{ intros n Hn. apply Hfresh. simpl. by right. }
    simpl. destruct (preorder_head added) as [rest ->].
    by rewrite filter_cons, decide_True.
  - intros (n & Hn & Hnname). simpl preorder.
    assert (name_of (Branch (AddNode node b)) = name_of (Branch b)) as Hrootname
      by done.
    rewrite !filter_cons, Hrootname.
    destruct (decide (name_of (Branch b) = name)) as [Hroot|Hroot]; [done|].
    simpl in Hn. apply elem_of_cons in Hn as [->|Hn]; [done|].
    destruct (head_filter_is_Some (λ n, name_of n = name) _ n Hn Hnname)
      as [found Hfound].
    by rewrite (head_filter_app_l _ _ _ found Hfound), Hfound.
Qed.

(** ** The representation invariant is kept by the whole interface *)

Lemma AllocatePercentage_same_nodes (b b' : BranchT) percentage node :
  AllocatePercentage percentage node b = Ok b' →
  m_nodes b' = m_nodes b ∧ branch_base b' = branch_base b.
Proof.
  unfold AllocatePercentage. repeat case_bool_decide; [done..|].
  by intros [= <-].
Qed.

Lemma allocate_all_same_nodes allocs (b b' : BranchT) :
  allocate_all allocs b = Ok b' →
  m_nodes b' = m_nodes b ∧ branch_base b' = branch_base b.
Proof.
  revert b. induction allocs as [|[node p] allocs IH]; intros b; simpl.
  - by intros [= <-].
  - destruct (AllocatePercentage p node b) as [b1| |] eqn:Hcall; [|done..].
    rewrite res_bind_Ok. intros Hrest.
    apply AllocatePercentage_same_nodes in Hcall as [<- <-]. by apply IH.
Qed.

Lemma SpreadPercentage_same_nodes (b b' : BranchT) :
  SpreadPercentage b = Ok b' →
  m_nodes b' = m_nodes b ∧ branch_base b' = branch_base b.
Proof.
  unfold SpreadPercentage. case_bool_decide; [done|].
  rewrite allocate_each_eq.
  destruct (allocate_all _ b) as [b1| |] eqn:Hfirst; [|done..].
  rewrite res_bind_Ok. apply allocate_all_same_nodes in Hfirst as [Hn Hb].
  case_bool_decide; [|by intros [= <-]].
  rewrite allocate_remainder_eq by apply size_t_wrap_range.
  intros [Hn' Hb']%allocate_all_same_nodes. by rewrite Hn', Hb'.
Qed.

Lemma res_mapM_inv {A B} (f : A → res B) (l : list A) (l' : list B) :
  res_mapM f l = Ok l' → Forall2 (λ a b, f a = Ok b) l l'.
Proof.
  revert l'. induction l as [|a l IH]; intros l'; simpl.
  - intros [= <-]. constructor.
  - destruct (f a) as [b| |] eqn:Hfa; [|done..]. rewrite res_bind_Ok.
    destruct (res_mapM f l) as [bs| |]; [|done..]. rewrite res_bind_Ok.
    intros [= <-]. constructor; [done|by apply IH].
Qed.

Lemma SpreadPercentageOnAllNotSetNodes_node_inv (b : BranchT) t' :
  SpreadPercentageOnAllNotSetNodes_node (Branch b) = Ok t' →
  ∃ b1 nodes',
    (if decide (m_lastAllocated b = 0) then SpreadPercentage b = Ok b1
     else b1 = b) ∧
    Forall2 (λ n n', SpreadPercentageOnAllNotSetNodes_node n = Ok n')
      (m_nodes b) nodes' ∧
    t' = Branch (with_nodes b1 nodes').
Proof.
  change (SpreadPercentageOnAllNotSetNodes_node (Branch b)) with
    (SpreadPercentageOnAllNotSetNodes_with
       SpreadPercentageOnAllNotSetNodes_node b ≫= λ b', Ok (Branch b')).
  unfold SpreadPercentageOnAllNotSetNodes_with.
  destruct (if bool_decide (m_lastAllocated b = 0) then SpreadPercentage b
            else Ok b) as [b1| |] eqn:Hfirst; [|done..].
  rewrite res_bind_Ok.
  destruct (res_mapM _ (m_nodes b)) as [nodes'| |] eqn:Hnodes; [|done..].
  rewrite !res_bind_Ok. intros [= <-]. exists b1, nodes'.
  split; [|split; [by apply res_mapM_inv|done]].
  case_bool_decide; case_decide; try done. by injection Hfirst as ->.
Qed.

Lemma SpreadPercentageOnAllNotSetNodes_node_base t t' :
  SpreadPercentageOnAllNotSetNodes_node t = Ok t' → base t' = base t.
Proof.
  destruct t as [l|b]; [by intros [= <-]|].
  intros (b1 & nodes' & Hb1 & _ & ->)%SpreadPercentageOnAllNotSetNodes_node_inv.
  simpl. case_decide; [|by subst].
  by apply SpreadPercentage_same_nodes in Hb1 as [_ ?].
Qed.

Lemma Branch_wf_with_nodes (b : BranchT) nodes :
  addr <$> nodes = children b → Branch_wf b → Branch_wf (with_nodes b nodes).
Proof.
  intros Hsame [Hlen Hlast Hown Hdom Hrange].
  split; simpl; unfold children; simpl; rewrite ?Hsame; done.
Qed.

Lemma SpreadPercentageOnAllNotSetNodes_node_wf t :
  tree_wf t → ∀ t', SpreadPercentageOnAllNotSetNodes_node t = Ok t' →
  tree_wf t'.
Proof.
  induction t as [l|b IH] using TreeNode_tree_ind; intros Hwf t' Hrun.
  - injection Hrun as <-. constructor.
  - apply every_branch_inv in Hwf as [Hwf Hwfs].
    apply SpreadPercentageOnAllNotSetNodes_node_inv in Hrun
      as (b1 & nodes' & Hb1 & Hnodes & ->).
    assert (Branch_wf b1 ∧ m_nodes b1 = m_nodes b) as [Hwf1 Hsame].
    { case_decide; [|by subst]. split; [by eapply SpreadPercentage_wf|].
      by apply SpreadPercentage_same_nodes in Hb1 as [? _]. }
    constructor.
    + apply Branch_wf_with_nodes; [|done]. unfold children. rewrite Hsame.
      clear -Hnodes. induction Hnodes as [|n n' ns ns' Hn _ IHn]; [done|].
      rewrite !fmap_cons, IHn. f_equal. unfold addr.
      by rewrite (SpreadPercentageOnAllNotSetNodes_node_base _ _ Hn).
    + simpl. clear Hb1 Hwf1 Hsame.
      induction Hnodes as [|n n' ns ns' Hn _ IHn]; [done|].
      apply Forall_cons in IH as [IHhead IHtail].
      apply Forall_cons in Hwfs as [Hwfn Hwfs].
      constructor; [by apply IHhead|by apply IHn].
Qed.

Lemma tree_wf_SetParent p t : tree_wf t → tree_wf (SetParent p t).
Proof.
  destruct t as [l|b]; [constructor|].
  intros [Hwf Hwfs]%every_branch_inv. constructor; [|done].
  destruct Hwf as [Hlen Hlast Hown Hdom Hrange]. by split.
Qed.

(** X10. Every operation of the configuration interface keeps the
    representation invariant at every Branch of the tree: [AddNode] of a
    well-formed node, [AllocatePercentage] with any [size_t] request that
    returns (an overflowing one included), [SpreadPercentage],
    [ResetAllocations] and [SpreadPercentageOnAllNotSetNodes].  So the
    running total of a Branch never leaves [0, 100], the table keeps its
    100 entries and every entry below the running total is a registered
    child. *)
Theorem tree_wf_kept (b : BranchT) :
  tree_wf (Branch b) →
  (∀ node, tree_wf node → tree_wf (Branch (AddNode node b))) ∧
  (∀ percentage node b', is_size_t percentage →
     AllocatePercentage percentage node b = Ok b' → tree_wf (Branch b')) ∧
  (∀ b', SpreadPercentage b = Ok b' → tree_wf (Branch b')) ∧
  tree_wf (Branch (ResetAllocations b)) ∧
  (∀ b', SpreadPercentageOnAllNotSetNodes b = Ok b' → tree_wf (Branch b')).
Proof.
  intros Hwf. pose proof Hwf as [Hb Hnodes]%every_branch_inv.
  split; [|split; [|split; [|split]]].
  - intros node Hnode. constructor; [by apply AddNode_wf|].
    simpl. apply Forall_app. split; [done|].
    constructor; [by apply tree_wf_SetParent|constructor].
  - intros percentage node b' Hp Hcall. constructor.
    + by eapply AllocatePercentage_wf.
    + by apply AllocatePercentage_same_nodes in Hcall as [-> _].
  - intros b' Hcall. constructor.
    + by eapply SpreadPercentage_wf.
    + by apply SpreadPercentage_same_nodes in Hcall as [-> _].
  - by apply (ResetAllocations_node_wf (Branch b)).
  - intros b' Hcall.
    apply (SpreadPercentageOnAllNotSetNodes_node_wf (Branch b) Hwf).
    change (SpreadPercentageOnAllNotSetNodes b ≫= (λ b', Ok (Branch b')) =
            Ok (Branch b')).
    by rewrite Hcall.
Qed.

(** ** ResetAllocations *)

(** The unset state of a Branch: a zero running total, a table of null
    pointers, and a zero recorded for every child. *)
Definition unset (b : BranchT) : Prop :=
  m_lastAllocated b = 0 ∧
  Forall (λ slot, slot = None) (m_percentageAllocations b) ∧
  ∀ child, child ∈ children b → m_nodesPercentageMap b !! child = Some 0.

Lemma ResetAllocations_node_unset t :
  every_branch unset (ResetAllocations_node t).
Proof.
  induction t as [l|b IH] using TreeNode_tree_ind; simpl; constructor.
  - split; [done|]. split.
    + simpl. apply Forall_fmap, Forall_forall. done.
    + intros child Hchild. fold (ResetAllocations b) in Hchild.
      rewrite ResetAllocations_children in Hchild. simpl.
      rewrite reset_map_lookup. by rewrite decide_True.
  - simpl. by apply Forall_fmap.
Qed.

Lemma ResetAllocations_node_idempotent t :
  ResetAllocations_node (ResetAllocations_node t) = ResetAllocations_node t.
Proof.
  induction t as [l|b IH] using TreeNode_tree_ind; [done|].
  simpl. unfold ResetAllocations_with; simpl. do 2 f_equal.
  - rewrite <- list_fmap_compose. apply list_fmap_ext.
    intros i n Hn. rewrite Forall_forall in IH.
    apply IH. by eapply list_elem_of_lookup_2.
  - apply map_eq. intros k. rewrite !reset_map_lookup.
    rewrite <- list_fmap_compose.
    rewrite (list_fmap_ext (addr ∘ ResetAllocations_node) addr (m_nodes b))
      by (intros; apply ResetAllocations_node_addr).
    by case_decide.
  - rewrite <- list_fmap_compose. by apply list_fmap_ext.
Qed.

Lemma ResetAllocations_node_preorder t :
  base <$> preorder (ResetAllocations_node t) = base <$> preorder t.
Proof.
  induction t as [l|b IH] using TreeNode_tree_ind; [done|].
  change (base <$> (Branch (ResetAllocations b) ::
                    mjoin (preorder <$> (ResetAllocations_node <$> m_nodes b))) =
          base <$> (Branch b :: mjoin (preorder <$> m_nodes b))).
  rewrite !fmap_cons. f_equal.
  induction IH as [|n ns Hn _ IHns]; [done|].
  change (base <$> (preorder (ResetAllocations_node n) ++
                    mjoin (preorder <$> (ResetAllocations_node <$> ns))) =
          base <$> (preorder n ++ mjoin (preorder <$> ns))).
  by rewrite !fmap_app, Hn, IHns.
Qed.

(** X11. [ResetAllocations] leaves every Branch of the subtree unset (zero
    running total, every slot null, zero recorded for every child), keeps
    the nodes themselves (the same names, addresses, parents and rules, in
    the same pre-order), and is idempotent. *)
Theorem ResetAllocations_spec (b : BranchT) :
  every_branch unset (Branch (ResetAllocations b)) ∧
  base <$> preorder (Branch (ResetAllocations b)) = base <$> preorder (Branch b) ∧
  ResetAllocations (ResetAllocations b) = ResetAllocations b.
Proof.
  split; [|split].
  - apply (ResetAllocations_node_unset (Branch b)).
  - apply (ResetAllocations_node_preorder (Branch b)).
  - pose proof (ResetAllocations_node_idempotent (Branch b)) as Hidem.
    change (Branch (ResetAllocations (ResetAllocations b)) =
            Branch (ResetAllocations b)) in Hidem.
    exact (f_equal (λ t, match t with
                         | Branch c => c
                         | Leaf _ => ResetAllocations b
                         end) Hidem).
Qed.

(** ** SpreadPercentageOnAllNotSetNodes *)

(** Every rule of every node of the subtree holds a function. *)
Definition rules_callable (t : TreeNode) : Prop :=
  Forall (λ n, Forall callable (m_rules (base n))) (preorder t).

Lemma rules_callable_inv (b : BranchT) :
  rules_callable (Branch b) →
  Forall callable (m_rules (branch_base b)) ∧ Forall rules_callable (m_nodes b).
Proof.
  unfold rules_callable. simpl. intros [Hroot Hrest]%Forall_cons.
  split; [done|]. apply Forall_forall. intros n Hn.
  apply Forall_forall. intros m Hm. rewrite Forall_forall in Hrest.
  apply Hrest. apply list_elem_of_join. exists (preorder n).
  split; [done|]. by apply list_elem_of_fmap_2.
Qed.

Lemma SpreadPercentageOnAllNotSetNodes_node_ready t :
  tree_wf t → every_branch has_child t →
  every_branch (λ c, m_lastAllocated c = 0 ∨ m_lastAllocated c = 100) t →
  rules_callable t →
  ∃ t', SpreadPercentageOnAllNotSetNodes_node t = Ok t' ∧ routing_ready t'.
Proof.
  induction t as [l|b IH] using TreeNode_tree_ind;
    intros Hwf Hchild Htotal Hrules.
  - exists (Leaf l). split; [done|]. constructor.
    unfold rules_callable in Hrules. simpl in Hrules.
    by apply Forall_cons in Hrules as [? _].
  - destruct (SpreadPercentageOnAllNotSetNodes_node_spec (Branch b) Hwf Hchild)
      as (t' & Hrun & _).
    exists t'. split; [done|].
    pose proof (SpreadPercentageOnAllNotSetNodes_node_wf _ Hwf _ Hrun) as Hwf'.
    pose proof Hrun as (b1 & nodes' & Hb1 & Hnodes & ->)
      %SpreadPercentageOnAllNotSetNodes_node_inv.
    apply every_branch_inv in Hwf as [Hwfb Hwfs].
    apply every_branch_inv in Hchild as [Hchildb Hchilds].
    apply every_branch_inv in Htotal as [Htotalb Htotals].
    apply rules_callable_inv in Hrules as [Hrulesb Hruless].
    apply every_branch_inv in Hwf' as [Hwfb' _].
    assert (branch_base b1 = branch_base b ∧ m_lastAllocated b1 = 100)
      as [Hbase H100].
    { case_decide as Hz.
      - rewrite SpreadPercentage_Ok in Hb1 by (done || apply Hwfb).
        by injection Hb1 as <-.
      - subst b1. split; [done|]. by destruct Htotalb. }
    constructor; simpl; [by rewrite Hbase|done|done|].
    clear Hb1 Hwfb' Hbase H100 Hrun.
    induction Hnodes as [|n n' ns ns' Hn _ IHn]; [done|].
    apply Forall_cons in IH as [IHhead IHtail].
    apply Forall_cons in Hwfs as [? ?]. apply Forall_cons in Hchilds as [? ?].
    apply Forall_cons in Htotals as [? ?]. apply Forall_cons in Hruless as [? ?].
    constructor; [|by apply IHn].
    destruct IHhead as (n'' & Hn'' & Hready); [done..|]. congruence.
Qed.

(** X12. The automatic spread makes a tree routable.  On a tree whose
    Branches all have a child and a running total of either 0 or 100, and
    whose rules all hold a function,
    [SpreadPercentageOnAllNotSetNodes] returns a tree in which every
    Branch has its running total at 100 and its whole table owned by its
    children; on that tree [Get] returns, for every order and every state
    of the generator. *)
Theorem SpreadPercentageOnAllNotSetNodes_ready (b : BranchT) :
  tree_wf (Branch b) → every_branch has_child (Branch b) →
  every_branch (λ c, m_lastAllocated c = 0 ∨ m_lastAllocated c = 100) (Branch b) →
  rules_callable (Branch b) →
  ∃ b', SpreadPercentageOnAllNotSetNodes b = Ok b' ∧
        routing_ready (Branch b') ∧
        ∀ parent g, is_Ok (Branch_Get b' parent g).
Proof.
  intros Hwf Hchild Htotal Hrules.
  destruct (SpreadPercentageOnAllNotSetNodes_node_ready (Branch b)
              Hwf Hchild Htotal Hrules) as (t' & Hrun & Hready).
  change (SpreadPercentageOnAllNotSetNodes b ≫= (λ b', Ok (Branch b')) = Ok t')
    in Hrun.
  destruct (SpreadPercentageOnAllNotSetNodes b) as [b'| |]; [|done..].
  rewrite res_bind_Ok in Hrun. injection Hrun as <-.
  exists b'. split; [done|]. split; [done|].
  intros parent g. by apply Get_returns.
Qed.

Lemma SpreadPercentageOnAllNotSetNodes_node_set t :
  every_branch (λ c, m_lastAllocated c ≠ 0) t →
  SpreadPercentageOnAllNotSetNodes_node t = Ok t.
Proof.
  induction t as [l|b IH] using TreeNode_tree_ind; intros Hset; [done|].
  apply every_branch_inv in Hset as [Hb Hnodes].
  change (SpreadPercentageOnAllNotSetNodes_with
            SpreadPercentageOnAllNotSetNodes_node b ≫= (λ b', Ok (Branch b')) =
          Ok (Branch b)).
  unfold SpreadPercentageOnAllNotSetNodes_with.
  rewrite bool_decide_eq_false_2, res_bind_Ok by done.
  assert (res_mapM SpreadPercentageOnAllNotSetNodes_node (m_nodes b) =
          Ok (m_nodes b)) as ->.
  { induction IH as [|n ns Hn _ IHns]; [done|].
    apply Forall_cons in Hnodes as [Hhead Htail].
    by rewrite res_mapM_cons, (Hn Hhead), res_bind_Ok, (IHns Htail). }
  rewrite !res_bind_Ok. by destruct b.
Qed.

Lemma SpreadPercentageOnAllNotSetNodes_node_nonzero t :
  tree_wf t → ∀ t', SpreadPercentageOnAllNotSetNodes_node t = Ok t' →
  every_branch (λ c, m_lastAllocated c ≠ 0) t'.
Proof.
  induction t as [l|b IH] using TreeNode_tree_ind; intros Hwf t' Hrun.
  - injection Hrun as <-. constructor.
  - apply every_branch_inv in Hwf as [Hwfb Hwfs].
    apply SpreadPercentageOnAllNotSetNodes_node_inv in Hrun
      as (b1 & nodes' & Hb1 & Hnodes & ->).
    constructor; simpl.
    + case_decide as Hz; [|by subst].
      destruct (decide (m_nodes b = [])) as [Hnone|Hsome].
      { by rewrite SpreadPercentage_childless in Hb1. }
      rewrite SpreadPercentage_Ok in Hb1 by (done || apply Hwfb).
      by injection Hb1 as <-.
    + clear Hb1. induction Hnodes as [|n n' ns ns' Hn _ IHn]; [done|].
      apply Forall_cons in IH as [IHhead IHtail].
      apply Forall_cons in Hwfs as [? ?].
      constructor; [by apply IHhead|by apply IHn].
Qed.

(** X13. [SpreadPercentageOnAllNotSetNodes] is idempotent: once it has
    returned, a second call returns the same tree, since no Branch is left
    with a zero running total (the guard [m_lastAllocated == 0] keeps
    [SpreadPercentage] from being applied twice). *)
Theorem SpreadPercentageOnAllNotSetNodes_idempotent (b b' : BranchT) :
  tree_wf (Branch b) →
  SpreadPercentageOnAllNotSetNodes b = Ok b' →
  SpreadPercentageOnAllNotSetNodes b' = Ok b' ∧
  every_branch (λ c, m_lastAllocated c ≠ 0) (Branch b').
Proof.
  intros Hwf Hrun.
  assert (SpreadPercentageOnAllNotSetNodes_node (Branch b) = Ok (Branch b'))
    as Hnode.
  { change (SpreadPercentageOnAllNotSetNodes b ≫= (λ b', Ok (Branch b')) =
            Ok (Branch b')). by rewrite Hrun. }
  pose proof (SpreadPercentageOnAllNotSetNodes_node_nonzero _ Hwf _ Hnode)
    as Hnonzero.
  split; [|done].
  pose proof (SpreadPercentageOnAllNotSetNodes_node_set _ Hnonzero) as Hagain.
  change (SpreadPercentageOnAllNotSetNodes b' ≫= (λ b', Ok (Branch b')) =
          Ok (Branch b')) in Hagain.
  destruct (SpreadPercentageOnAllNotSetNodes b') as [b2| |]; [|done..].
  rewrite res_bind_Ok in Hagain. by injection Hagain as ->.
Qed.

(** ** The map and the table agree *)

(** The percentage recorded for a node is the number of slots below the
    running total that hold it: what [DumpTree] prints is what
    [getRandomNode] draws from. *)
Definition consistent (b : BranchT) : Prop :=
  ∀ node, percentage_of b node =
          Z.of_nat (length (filter (λ slot, slot = Some node)
                              (take (Z.to_nat (m_lastAllocated b))
                                 (m_percentageAllocations b)))).

Definition sum_Z (l : list Z) : Z := foldr Z.add 0 l.

Lemma consistent_AllocatePercentage (b b' : BranchT) percentage node :
  Branch_wf b → consistent b → 0 ≤ percentage ≤ SIZE_MAX - 100 →
  AllocatePercentage percentage node b = Ok b' → consistent b'.
Proof.
  intros Hwf Hcons [Hp Hmax] Hcall. pose proof Hwf as [Hlen Hlast _ _ _].
  assert (m_lastAllocated b + percentage ≤ 100 ∧ node ∈ children b)
    as [Hsum Hin].
  { revert Hcall. unfold AllocatePercentage.
    rewrite size_t_wrap_small
      by (unfold is_size_t, SIZE_MAX in *; rewrite size_t_modulus_eq in *; lia).
    repeat case_bool_decide; first [done | intros _; split; [lia|done]]. }
  rewrite AllocatePercentage_Ok in Hcall by (done || lia).
  injection Hcall as <-. intros k. unfold percentage_of; simpl.
  rewrite assign_slots_eq by lia.
  replace (Z.to_nat (m_lastAllocated b + percentage))
    with (Z.to_nat (m_lastAllocated b) + Z.to_nat percentage)%nat by lia.
  rewrite app_assoc, take_app_length'
    by (rewrite length_app, length_take, length_replicate; lia).
  rewrite filter_app, length_app, filter_replicate_slot.
  unfold record_allocation; simpl. specialize (Hcons k).
  unfold percentage_of in Hcons.
  pose proof (length_filter (λ slot, slot = Some k)
    (take (Z.to_nat (m_lastAllocated b)) (m_percentageAllocations b))) as Hle.
  rewrite length_take in Hle.
  destruct (decide (node = k)) as [->|Hne].
  - rewrite lookup_insert_eq. simpl. rewrite Hcons.
    rewrite size_t_wrap_small
      by (unfold is_size_t, SIZE_MAX in *; rewrite size_t_modulus_eq in *; lia).
    lia.
  - rewrite lookup_insert_ne by done. rewrite Hcons. lia.
Qed.

Lemma consistent_allocate_all allocs (b b' : BranchT) :
  Forall (λ a, 0 ≤ a.2 ≤ 100) allocs →
  Branch_wf b → consistent b →
  allocate_all allocs b = Ok b' → consistent b'.
Proof.
  intros Hall. revert b. induction Hall as [|[node p] allocs Hp _ IH];
    intros b Hwf Hcons; simpl.
  - by intros [= <-].
  - destruct (AllocatePercentage p node b) as [b1| |] eqn:Hcall; [|done..].
    rewrite res_bind_Ok. simpl in Hp. apply IH.
    + eapply AllocatePercentage_wf; [|done..]. apply size_t_percent. lia.
    + eapply consistent_AllocatePercentage; [done..| |done].
      unfold SIZE_MAX. rewrite size_t_modulus_eq. lia.
Qed.

(** X14. The map and the slot table stay in agreement.  The constructor
    leaves a Branch in which the percentage recorded for every node is the
    number of slots below the running total that hold it, and [AddNode],
    [AllocatePercentage] (for a request of at most [SIZE_MAX - 100], which
    cannot overflow), [SpreadPercentage] and [ResetAllocations] keep it
    so. *)
Theorem consistent_kept (b : BranchT) :
  Branch_wf b → consistent b →
  (∀ self indeterminate slots name,
     consistent (Branch_ctor self indeterminate slots name)) ∧
  (∀ node, consistent (AddNode node b)) ∧
  (∀ percentage node b', 0 ≤ percentage ≤ SIZE_MAX - 100 →
     AllocatePercentage percentage node b = Ok b' → consistent b') ∧
  (∀ b', SpreadPercentage b = Ok b' → consistent b') ∧
  consistent (ResetAllocations b).
Proof.
  intros Hwf Hcons. split; [|split; [|split; [|split]]].
  - intros self indeterminate slots name k. unfold percentage_of. simpl.
    by rewrite lookup_empty.
  - intros node k. apply (Hcons k).
  - intros percentage node b' Hp Hcall.
    by eapply consistent_AllocatePercentage.
  - intros b'. unfold SpreadPercentage. case_bool_decide as Hcount; [done|].
    assert (0 < Z.of_nat (length (m_nodes b))) as Hpos by lia.
    assert (0 ≤ 100 `div` Z.of_nat (length (m_nodes b)) ≤ 100) as Hq.
    { pose proof (Z.div_pos 100 _ ltac:(lia) Hpos).
      pose proof (Z.div_le_upper_bound 100 _ 100 Hpos ltac:(lia)). lia. }
    rewrite allocate_each_eq.
    destruct (allocate_all _ b) as [b1| |] eqn:Hfirst; [|done..].
    rewrite res_bind_Ok.
    assert (Branch_wf b1 ∧ consistent b1) as [Hwf1 Hcons1].
    { split.
      - eapply allocate_all_wf; [|done..]. apply Forall_fmap, Forall_forall.
        intros node _. simpl. apply size_t_percent. lia.
      - eapply consistent_allocate_all; [|done..].
        apply Forall_fmap, Forall_forall. by intros node _. }
    case_bool_decide; [|by intros [= <-]].
    rewrite allocate_remainder_eq by apply size_t_wrap_range.
    apply consistent_allocate_all; [|done..].
    apply Forall_fmap, Forall_forall. intros node _. simpl. lia.
  - intros k. unfold percentage_of. simpl. rewrite reset_map_lookup.
    case_decide as Hk; [done|].
    destruct (m_nodesPercentageMap b !! k) eqn:Hlook; [|done].
    exfalso. apply Hk. apply Hwf. by rewrite Hlook.
Qed.

Lemma sum_Z_add {A} (f g : A → Z) (l : list A) :
  sum_Z ((λ a, f a + g a) <$> l) = sum_Z (f <$> l) + sum_Z (g <$> l).
Proof.
  unfold sum_Z. induction l as [|a l IH]; [done|].
  rewrite !fmap_cons. simpl. rewrite IH. lia.
Qed.

Lemma sum_Z_indicator (nodes : list ptr) (node : ptr) :
  NoDup nodes → node ∈ nodes →
  sum_Z ((λ n, if decide (node = n) then 1 else 0) <$> nodes) = 1.
Proof.
  unfold sum_Z. induction 1 as [|n nodes Hn Hnd IH]; [by intros ?%elem_of_nil|].
  intros Hin. rewrite fmap_cons. simpl.
  destruct (decide (node = n)) as [->|Hne].
  - assert (foldr Z.add 0
              ((λ m, if decide (n = m) then 1 else 0) <$> nodes) = 0) as ->;
      [|done].
    clear -Hn. induction nodes as [|m nodes IH]; [done|].
    rewrite fmap_cons. simpl. rewrite decide_False by (intros ->; apply Hn; left).
    rewrite IH; [done|]. intros ?. apply Hn. by right.
  - apply elem_of_cons in Hin as [?|Hin]; [done|]. by rewrite IH.
Qed.

Lemma sum_Z_owned (nodes : list ptr) (slots : list (option ptr)) :
  NoDup nodes →
  Forall (λ slot, ∃ node, slot = Some node ∧ node ∈ nodes) slots →
  sum_Z ((λ n, Z.of_nat (length (filter (λ slot, slot = Some n) slots)))
           <$> nodes) = Z.of_nat (length slots).
Proof.
  intros Hnd. induction 1 as [|slot slots (node & -> & Hin) _ IH].
  - unfold sum_Z. induction nodes as [|n nodes IHn]; [done|].
    rewrite fmap_cons. simpl. simpl in IHn. rewrite IHn; [done|].
    by apply NoDup_cons in Hnd as [_ ?].
  - transitivity (sum_Z ((λ n, (if decide (node = n) then 1 else 0) +
        Z.of_nat (length (filter (λ slot, slot = Some n) slots))) <$> nodes)).
    + f_equal. apply list_fmap_ext. intros _ n _. rewrite filter_cons.
      destruct (decide (node = n)) as [->|Hne].
      * rewrite decide_True by done. simpl. lia.
      * rewrite decide_False by congruence. lia.
    + rewrite sum_Z_add, IH, (sum_Z_indicator nodes node Hnd Hin).
      simpl length. lia.
Qed.

(** X15. On a Branch with distinct children the percentages recorded for
    the children add up to the running total; once the Branch is
    configured (running total 100) they add up to exactly 100. *)
Theorem percentages_sum_to_total (b : BranchT) :
  Branch_wf b → consistent b → NoDup (children b) →
  sum_Z (percentage_of b <$> children b) = m_lastAllocated b ∧
  (m_lastAllocated b = 100 → sum_Z (percentage_of b <$> children b) = 100).
Proof.
  intros [Hlen Hlast Hown _ _] Hcons Hnd.
  assert (sum_Z (percentage_of b <$> children b) = m_lastAllocated b) as Hsum.
  { rewrite (list_fmap_ext (percentage_of b) _ (children b))
      by (intros _ n _; apply (Hcons n)).
    rewrite sum_Z_owned; [rewrite length_take; lia|done|].
    apply Forall_forall. intros slot Hslot.
    apply list_elem_of_lookup in Hslot as [i Hi].
    pose proof (lookup_lt_Some _ _ _ Hi) as Hlt. rewrite length_take in Hlt.
    rewrite lookup_take_lt in Hi by lia.
    destruct (Hown i ltac:(lia)) as (node & Hnode & Hin).
    exists node. split; [congruence|done]. }
  split; [done|]. intros H100. by rewrite Hsum.
Qed.

(** ** The text that [DumpTree] prints *)

(** The text of a subtree at a depth, as the diagnostic interface lays it
    out: the name of the node on a line of its own after one tab per
    level; then, for each child of a Branch in insertion order, one tab
    per level, the percentage recorded for the child, the separator, and
    the text of the child one level deeper. *)
Fixpoint tabs (level : nat) : string :=
  match level with
  | O => ""
  | S level' => tab +:+ tabs level'
  end.

Definition string_join (parts : list string) : string :=
  foldr String.append "" parts.

Fixpoint render (t : TreeNode) (level : nat) : string :=
  match t with
  | Leaf l => tabs level +:+ GetName (leaf_base l) +:+ endl
  | Branch b =>
      tabs level +:+ GetName (branch_base b) +:+ endl +:+
      string_join
        ((λ node, tabs level +:+ pretty (percentage_of b (addr node)) +:+
                  " : " +:+ render node (S level)) <$> m_nodes b)
  end.

(** Two trees that differ at most by keys of value 0 added to the maps. *)
Inductive same_allocation : TreeNode → TreeNode → Prop :=
| same_allocation_leaf l : same_allocation (Leaf l) (Leaf l)
| same_allocation_branch b b' :
    branch_base b' = branch_base b →
    m_percentageAllocations b' = m_percentageAllocations b →
    m_lastAllocated b' = m_lastAllocated b →
    (∀ node, percentage_of b' node = percentage_of b node) →
    (∀ node, is_Some (m_nodesPercentageMap b' !! node) →
             is_Some (m_nodesPercentageMap b !! node) ∨ node ∈ children b) →
    Forall2 same_allocation (m_nodes b) (m_nodes b') →
    same_allocation (Branch b) (Branch b').

(** Every child of every Branch has an entry in the map of its parent. *)
Definition recorded (b : BranchT) : Prop :=
  ∀ child, child ∈ children b → is_Some (m_nodesPercentageMap b !! child).

Lemma string_app_assoc (a b c : string) : (a +:+ b) +:+ c = a +:+ (b +:+ c).
Proof.
  induction a as [|x a IH]; [done|].
  change (String x ((a +:+ b) +:+ c) = String x (a +:+ (b +:+ c))).
  by f_equal.
Qed.

Lemma string_app_nil_r (a : string) : a +:+ "" = a.
Proof.
  induction a as [|x a IH]; [done|].
  change (String x (a +:+ "") = String x a). by f_equal.
Qed.

Lemma indent_tabs out level : indent out level = out +:+ tabs level.
Proof.
  revert out. induction level as [|level IH]; intros out; simpl.
  - by rewrite string_app_nil_r.
  - by rewrite IH, string_app_assoc.
Qed.

Lemma map_subscript_spec (m : gmap ptr Z) node :
  (map_subscript m node).2 = default 0 (m !! node) ∧
  (∀ k, default 0 ((map_subscript m node).1 !! k) = default 0 (m !! k)) ∧
  (∀ k, is_Some ((map_subscript m node).1 !! k) ↔ is_Some (m !! k) ∨ k = node) ∧
  (is_Some (m !! node) → (map_subscript m node).1 = m).
Proof.
  unfold map_subscript. destruct (m !! node) as [v|] eqn:Hlook; simpl.
  - split; [done|]. split; [done|]. split; [|done].
    intros k. split; [by left|]. intros [?| ->]; [done|by rewrite Hlook].
  - split; [done|]. split; [|split].
    + intros k. destruct (decide (node = k)) as [<-|Hne].
      * by rewrite lookup_insert_eq, Hlook.
      * by rewrite lookup_insert_ne.
    + intros k. destruct (decide (node = k)) as [<-|Hne].
      * rewrite lookup_insert_eq. split; [by right|by eexists].
      * rewrite lookup_insert_ne by done. split; [by left|].
        by intros [?| ->].
    + by intros [? ?].
Qed.

Lemma DumpTree_children_output (b : BranchT) level nodes m out :
  Forall (λ n, ∀ out level, (DumpTree n out level).1 = out +:+ render n level)
    nodes →
  (∀ k, default 0 (m !! k) = percentage_of b k) →
  (DumpTree_children DumpTree level nodes m out).1.1 =
  out +:+ string_join
            ((λ node, tabs level +:+ pretty (percentage_of b (addr node)) +:+
                      " : " +:+ render node (S level)) <$> nodes).
Proof.
  intros Hnodes. revert m out.
  induction Hnodes as [|n nodes Hn _ IH]; intros m out Hm; simpl.
  - by rewrite string_app_nil_r.
  - destruct (map_subscript_spec m (addr n)) as (Hv & Hkeep & _).
    destruct (map_subscript m (addr n)) as [m1 v]. simpl in Hv, Hkeep.
    specialize (Hn ((indent out level +:+ pretty v) +:+ " : ") (S level)).
    destruct (DumpTree n _ (S level)) as [out3 n']. simpl in Hn.
    specialize (IH m1 out3 ltac:(intros k; by rewrite Hkeep)).
    destruct (DumpTree_children DumpTree level nodes m1 out3) as [[out4 rest'] m'].
    simpl in IH |- *. rewrite IH, Hn, Hv, Hm, indent_tabs.
    by rewrite !string_app_assoc.
Qed.

(** X16. [DumpTree] appends to the stream, and what it appends depends on
    the tree alone: the name of the node after one tab per level and a
    newline, then for each child of a Branch, in insertion order, one tab
    per level, the percentage recorded for the child (0 for a child never
    allocated), [" : "], and the text of the child one level deeper.  The
    entries that [operator[]] inserts on the way do not change what is
    printed for the later children. *)
Theorem DumpTree_output (t : TreeNode) (out : string) (level : nat) :
  (DumpTree t out level).1 = out +:+ render t level.
Proof.
  revert out level. induction t as [l|b IH] using TreeNode_tree_ind;
    intros out level; simpl.
  - by rewrite indent_tabs, !string_app_assoc.
  - unfold Branch_DumpTree_with.
    pose proof (DumpTree_children_output b level (m_nodes b)
      (m_nodesPercentageMap b)
      ((indent out level +:+ GetName (branch_base b)) +:+ endl) IH
      ltac:(done)) as Hout.
    destruct (DumpTree_children DumpTree level (m_nodes b) _ _)
      as [[out2 nodes'] m'].
    simpl in Hout |- *. rewrite Hout, indent_tabs.
    by rewrite !string_app_assoc.
Qed.

Lemma Forall_Forall2_combine {A B} (P : A → Prop) (R Q : A → B → Prop) l l' :
  Forall P l → Forall2 R l l' → (∀ x y, P x → R x y → Q x y) →
  Forall2 Q l l'.
Proof.
  intros HP HR Himp. induction HR as [|x y l l' Hxy _ IH]; [constructor|].
  apply Forall_cons in HP as [Hx HP]. constructor; auto.
Qed.

Lemma call_Get_agree (vt vt' : list (ptr * Rand (option ResultType))) p g :
  Forall2 (λ a a', a'.1 = a.1 ∧ ∀ g, a'.2 g = a.2 g) vt vt' →
  call_Get vt' p g = call_Get vt p g.
Proof.
  induction 1 as [|[q get] [q' get'] vt vt' [Hq Hget] _ IH]; [done|].
  simpl in Hq, Hget |- *. subst q'. by destruct (bool_decide (q = p)).
Qed.

Lemma Get_loop_agree (b : BranchT) vt vt' (n : nat) g :
  Forall2 (λ a a', a'.1 = a.1 ∧ ∀ g, a'.2 g = a.2 g) vt vt' →
  Get_loop n b vt' g = Get_loop n b vt g.
Proof.
  intros Hvt. revert g. induction n as [|n IH]; intros g; [done|].
  cbn [Get_loop]. unfold Get_try.
  destruct (getRandomNode b g) as [[[p|] g1]| |]; [| |done..].
  - rewrite !res_bind_Ok, (call_Get_agree vt vt' p g1 Hvt).
    destruct (call_Get vt p g1) as [[[v|] g2]| |]; [done| |done..].
    rewrite !res_bind_Ok. apply IH.
  - rewrite !res_bind_Ok. apply IH.
Qed.

Lemma Branch_Get_with_agree (b : BranchT) vt vt' parent g :
  Forall2 (λ a a', a'.1 = a.1 ∧ ∀ g, a'.2 g = a.2 g) vt vt' →
  Branch_Get_with vt' b parent g = Branch_Get_with vt b parent g.
Proof.
  intros Hvt. unfold Branch_Get_with. generalize (Z.to_nat MAX_TRIES). intros n.
  destruct (allRulesPassed (m_rules (branch_base b)) parent) as [passed| |];
    [|done..].
  rewrite !res_bind_Ok. destruct (negb passed); [done|].
  by apply Get_loop_agree.
Qed.

Lemma same_allocation_spec t t' :
  same_allocation t t' →
  base t' = base t ∧
  (∀ parent g, Get t' parent g = Get t parent g) ∧
  base <$> preorder t' = base <$> preorder t ∧
  (tree_wf t → tree_wf t').
Proof.
  revert t'. induction t as [l|b IH] using TreeNode_tree_ind; intros t' Hsame.
  { inversion Hsame; subst. done. }
  inversion Hsame as [|b0 b' Hbase Hslots Hlast Hpct Hdom Hnodes]; subst.
  pose proof (Forall_Forall2_combine _ _
    (λ n n', base n' = base n ∧
             (∀ parent g, Get n' parent g = Get n parent g) ∧
             base <$> preorder n' = base <$> preorder n ∧
             (tree_wf n → tree_wf n')) _ _ IH Hnodes
    ltac:(intros x y Hx Hxy; by apply Hx)) as Hall.
  assert (children b' = children b) as Hchildren.
  { unfold children. clear -Hall.
    induction Hall as [|n n' ns ns' (Hb & _) _ IHns]; [done|].
    rewrite !fmap_cons, IHns. unfold addr. by rewrite Hb. }
  split; [done|]. split; [|split].
  - intros parent g.
    change (Branch_Get_with ((λ node, (addr node, Get node parent)) <$> m_nodes b')
              b' parent g =
            Branch_Get_with ((λ node, (addr node, Get node parent)) <$> m_nodes b)
              b parent g).
    rewrite (Branch_Get_with_ext _ b b') by (by rewrite ?Hbase).
    apply Branch_Get_with_agree. clear -Hall.
    induction Hall as [|n n' ns ns' (Hb & Hget & _) _ IHns]; [constructor|].
    rewrite !fmap_cons. constructor; [|done]. simpl. split; [|done].
    unfold addr. by rewrite Hb.
  - change (base <$> (Branch b' :: mjoin (preorder <$> m_nodes b')) =
            base <$> (Branch b :: mjoin (preorder <$> m_nodes b))).
    rewrite !fmap_cons. f_equal; [done|]. clear -Hall.
    induction Hall as [|n n' ns ns' (_ & _ & Hpre & _) _ IHns]; [done|].
    change (base <$> (preorder n' ++ mjoin (preorder <$> ns')) =
            base <$> (preorder n ++ mjoin (preorder <$> ns))).
    by rewrite !fmap_app, Hpre, IHns.
  - intros Hwf. apply every_branch_inv in Hwf as [Hwf Hwfs].
    constructor.
    + destruct Hwf as [Hlen Hrange Hown Hmdom Hmrange]. split.
      * by rewrite Hslots.
      * by rewrite Hlast.
      * intros i Hi. rewrite Hslots, Hchildren. apply Hown. by rewrite <- Hlast.
      * intros node Hnode. rewrite Hchildren.
        destruct (Hdom node Hnode); auto.
      * intros node. rewrite Hpct. apply Hmrange.
    + clear -Hall Hwfs.
      induction Hall as [|n n' ns ns' (_ & _ & _ & Hn) _ IHns]; [constructor|].
      apply Forall_cons in Hwfs as [? ?]. constructor; [by apply Hn|auto].
Qed.

Lemma DumpTree_children_effect level nodes m out :
  Forall (λ n, ∀ out level, same_allocation n (DumpTree n out level).2) nodes →
  Forall2 same_allocation nodes
    (DumpTree_children DumpTree level nodes m out).1.2 ∧
  (∀ k, default 0 ((DumpTree_children DumpTree level nodes m out).2 !! k) =
        default 0 (m !! k)) ∧
  (∀ k, is_Some ((DumpTree_children DumpTree level nodes m out).2 !! k) ↔
        is_Some (m !! k) ∨ k ∈ addr <$> nodes).
Proof.
  intros Hnodes. revert m out.
  induction Hnodes as [|n nodes Hn _ IH]; intros m out; simpl.
  - split; [constructor|]. split; [done|]. intros k. split; [by left|].
    intros [?|Hin]; [done|]. by apply elem_of_nil in Hin.
  - destruct (map_subscript_spec m (addr n)) as (_ & Hkeep & Hdom & _).
    destruct (map_subscript m (addr n)) as [m1 v]. simpl in Hkeep, Hdom.
    specialize (Hn ((indent out level +:+ pretty v) +:+ " : ") (S level)).
    destruct (DumpTree n _ (S level)) as [out3 n']. simpl in Hn.
    destruct (IH m1 out3) as (Hall & Hkeep' & Hdom').
    destruct (DumpTree_children DumpTree level nodes m1 out3) as [[out4 rest'] m'].
    simpl in Hall, Hkeep', Hdom' |- *. split; [by constructor|]. split.
    + intros k. by rewrite Hkeep', Hkeep.
    + intros k. rewrite Hdom', Hdom, elem_of_cons. tauto.
Qed.

Lemma DumpTree_same_allocation t out level :
  same_allocation t (DumpTree t out level).2.
Proof.
  revert out level. induction t as [l|b IH] using TreeNode_tree_ind;
    intros out level; simpl; [constructor|].
  unfold Branch_DumpTree_with.
  destruct (DumpTree_children_effect level (m_nodes b) (m_nodesPercentageMap b)
    ((indent out level +:+ GetName (branch_base b)) +:+ endl) IH)
    as (Hall & Hkeep & Hdom).
  destruct (DumpTree_children DumpTree level (m_nodes b) _ _)
    as [[out2 nodes'] m'].
  simpl in Hall, Hkeep, Hdom |- *. constructor; simpl; try done.
  intros node Hnode. by apply Hdom.
Qed.

Lemma DumpTree_children_recorded level nodes m out :
  Forall (λ n, ∀ out level, (DumpTree n out level).2 = n) nodes →
  (∀ n, n ∈ nodes → is_Some (m !! addr n)) →
  (DumpTree_children DumpTree level nodes m out).1.2 = nodes ∧
  (DumpTree_children DumpTree level nodes m out).2 = m.
Proof.
  intros Hnodes. revert m out.
  induction Hnodes as [|n nodes Hn _ IH]; intros m out Hrec; simpl; [done|].
  destruct (map_subscript_spec m (addr n)) as (_ & _ & _ & Hsame).
  specialize (Hsame (Hrec n ltac:(by left))).
  destruct (map_subscript m (addr n)) as [m1 v]. simpl in Hsame. subst m1.
  specialize (Hn ((indent out level +:+ pretty v) +:+ " : ") (S level)).
  destruct (DumpTree n _ (S level)) as [out3 n']. simpl in Hn. subst n'.
  destruct (IH m out3 ltac:(intros n0 Hn0; apply Hrec; by right)) as [Hns Hm].
  destruct (DumpTree_children DumpTree level nodes m out3) as [[out4 rest'] m'].
  simpl in Hns, Hm |- *. by subst.
Qed.

Lemma same_allocation_render t t' level :
  same_allocation t t' → render t' level = render t level.
Proof.
  revert t' level. induction t as [l|b IH] using TreeNode_tree_ind;
    intros t' level Hsame.
  { by inversion Hsame; subst. }
  inversion Hsame as [|b0 b' Hbase Hslots Hlast Hpct Hdom Hnodes]; subst.
  simpl. rewrite Hbase. do 3 f_equal.
  pose proof (Forall_Forall2_combine _ _
    (λ n n', base n' = base n ∧ ∀ level, render n' level = render n level)
    _ _ IH Hnodes
    ltac:(intros x y Hx Hxy; split;
          [by destruct (same_allocation_spec _ _ Hxy)|intros; by apply Hx]))
    as Hall.
  clear -Hall Hpct.
  induction Hall as [|n n' ns ns' [Hb Hr] _ IHns]; [done|].
  rewrite !fmap_cons. unfold string_join in *. cbn [foldr].
  rewrite IHns, Hr, Hpct. unfold addr. by rewrite Hb.
Qed.

(** X17. [DumpTree] is a diagnostic: it leaves the routing as it was.  The
    tree after the call has the same nodes (names, addresses, parents and
    rules, in the same pre-order), the same slot tables and running
    totals, and reads the same percentage for every child; only keys of
    value 0 may have been added to the maps, for children.  So the
    representation invariant is kept and [Get] returns, for every order
    and every state of the random generator, what it returned before. *)
Theorem DumpTree_keeps_routing (t : TreeNode) (out : string) (level : nat) :
  same_allocation t (DumpTree t out level).2 ∧
  base <$> preorder (DumpTree t out level).2 = base <$> preorder t ∧
  (tree_wf t → tree_wf (DumpTree t out level).2) ∧
  (∀ parent g, Get (DumpTree t out level).2 parent g = Get t parent g).
Proof.
  pose proof (DumpTree_same_allocation t out level) as Hsame.
  destruct (same_allocation_spec _ _ Hsame) as (_ & Hget & Hpre & Hwf).
  done.
Qed.

(** X18. After [DumpTree] every child of every Branch has an entry in the
    map of its parent, and on a tree where that already holds [DumpTree]
    changes nothing at all; so a second [DumpTree] changes nothing, and
    the text of the tree is the same after the call as before. *)
Theorem DumpTree_records_children (t : TreeNode) (out : string) (level : nat) :
  every_branch recorded (DumpTree t out level).2 ∧
  (every_branch recorded t → (DumpTree t out level).2 = t) ∧
  (∀ out' level',
     (DumpTree (DumpTree t out level).2 out' level').2 =
       (DumpTree t out level).2 ∧
     render (DumpTree t out level).2 level' = render t level').
Proof.
  assert (∀ t out level, every_branch recorded t → (DumpTree t out level).2 = t)
    as Hfixed.
  { clear t out level. intros t. induction t as [l|b IH] using TreeNode_tree_ind;
      intros out level Hrec; [done|].
    apply every_branch_inv in Hrec as [Hrec Hrecs]. simpl.
    unfold Branch_DumpTree_with.
    destruct (DumpTree_children_recorded level (m_nodes b)
      (m_nodesPercentageMap b)
      ((indent out level +:+ GetName (branch_base b)) +:+ endl)) as [Hns Hm].
    { apply Forall_forall. intros n Hn ??.
      rewrite Forall_forall in IH. rewrite Forall_forall in Hrecs.
      by apply IH, Hrecs. }
    { intros n Hn. apply Hrec. unfold children. by apply list_elem_of_fmap_2. }
    destruct (DumpTree_children DumpTree level (m_nodes b) _ _)
      as [[out2 nodes'] m'].
    simpl in Hns, Hm |- *. subst. by destruct b. }
  assert (∀ t out level, every_branch recorded (DumpTree t out level).2)
    as Hrecorded.
  { clear t out level. intros t. induction t as [l|b IH] using TreeNode_tree_ind;
      intros out level; simpl; [constructor|].
    unfold Branch_DumpTree_with.
    pose proof (DumpTree_children_effect level (m_nodes b)
      (m_nodesPercentageMap b)
      ((indent out level +:+ GetName (branch_base b)) +:+ endl)
      ltac:(eapply Forall_impl; [exact IH|];
            intros; apply DumpTree_same_allocation))
      as (Hall & _ & Hdom).
    assert (Forall (every_branch recorded)
      (DumpTree_children DumpTree level (m_nodes b) (m_nodesPercentageMap b)
         ((indent out level +:+ GetName (branch_base b)) +:+ endl)).1.2)
      as Hkids.
    { generalize (m_nodesPercentageMap b).
      generalize ((indent out level +:+ GetName (branch_base b)) +:+ endl).
      clear -IH. induction IH as [|n ns Hn _ IHns]; intros o m; simpl;
        [constructor|].
      destruct (map_subscript m (addr n)) as [m1 v].
      specialize (Hn ((indent o level +:+ pretty v) +:+ " : ") (S level)).
      destruct (DumpTree n _ (S level)) as [out3 n']. simpl in Hn.
      specialize (IHns out3 m1).
      destruct (DumpTree_children DumpTree level ns m1 out3)
        as [[out4 rest'] m'].
      simpl in IHns |- *. by constructor. }
    destruct (DumpTree_children DumpTree level (m_nodes b) _ _)
      as [[out2 nodes'] m'].
    simpl in Hall, Hdom, Hkids |- *. constructor; [|done].
    intros child. unfold children. simpl. intros Hchild. apply Hdom. right.
    revert Hall Hchild. generalize (m_nodes b). clear IH Hkids Hdom. intros ms Hall Hchild.
    induction Hall as [|n n' ns ns' Hn _ IHns]; [done|].
    rewrite fmap_cons in Hchild |- *. apply elem_of_cons in Hchild as [->|?].
    - apply elem_of_cons. left. unfold addr.
      by destruct (same_allocation_spec _ _ Hn) as [-> _].
    - apply elem_of_cons. right. by apply IHns. }
  split; [apply Hrecorded|]. split; [apply Hfixed|].
  intros out' level'. split.
  - apply Hfixed, Hrecorded.
  - apply same_allocation_render, DumpTree_same_allocation.
Qed.

(** ** Name lookup after the other operations *)

Lemma head_filter_base (l : list TreeNode) name :
  base <$> head (filter (λ n, name_of n = name) l) =
  head (filter (λ nb, GetName nb = name) (base <$> l)).
Proof.
  induction l as [|n l IH]; [done|].
  rewrite fmap_cons, !filter_cons. unfold name_of at 1.
  destruct (decide (GetName (base n) = name)); [done|apply IH].
Qed.

Lemma GetNodeByName_base_ext t t' name :
  base <$> preorder t' = base <$> preorder t →
  base <$> GetNodeByName t' name = base <$> GetNodeByName t name.
Proof.
  intros Hpre. by rewrite !GetNodeByName_head_filter, !head_filter_base, Hpre.
Qed.

Lemma preorder_same_nodes (b b' : BranchT) :
  m_nodes b' = m_nodes b → branch_base b' = branch_base b →
  base <$> preorder (Branch b') = base <$> preorder (Branch b).
Proof.
  intros Hnodes Hbase.
  change (base <$> (Branch b' :: mjoin (preorder <$> m_nodes b')) =
          base <$> (Branch b :: mjoin (preorder <$> m_nodes b))).
  rewrite !fmap_cons, Hnodes. simpl. by rewrite Hbase.
Qed.

Lemma SpreadPercentageOnAllNotSetNodes_node_preorder t t' :
  SpreadPercentageOnAllNotSetNodes_node t = Ok t' →
  base <$> preorder t' = base <$> preorder t.
Proof.
  revert t'. induction t as [l|b IH] using TreeNode_tree_ind; intros t' Hcall.
  { by injection Hcall as <-. }
  pose proof (SpreadPercentageOnAllNotSetNodes_node_base _ _ Hcall) as Hbase.
  apply SpreadPercentageOnAllNotSetNodes_node_inv in Hcall
    as (b1 & nodes' & _ & Hnodes & ->).
  change (base <$> (Branch (with_nodes b1 nodes') ::
                    mjoin (preorder <$> nodes')) =
          base <$> (Branch b :: mjoin (preorder <$> m_nodes b))).
  rewrite !fmap_cons. f_equal; [exact Hbase|].
  pose proof (Forall_Forall2_combine _ _
    (λ n n', base <$> preorder n' = base <$> preorder n) _ _ IH Hnodes
    ltac:(intros x y Hx Hxy; by apply Hx)) as Hall.
  clear -Hall. induction Hall as [|n n' ns ns' Hn _ IHns]; [done|].
  change (base <$> (preorder n' ++ mjoin (preorder <$> ns')) =
          base <$> (preorder n ++ mjoin (preorder <$> ns))).
  by rewrite !fmap_app, Hn, IHns.
Qed.

(** X19. [GetNodeByName] looks at names only, and no operation on the
    allocations touches a name: after [AllocatePercentage],
    [SpreadPercentage], [ResetAllocations],
    [SpreadPercentageOnAllNotSetNodes] or [DumpTree] a lookup fails for
    the names it failed for before, and otherwise finds the node of the
    same address, name, parent and rules. *)
Theorem GetNodeByName_after_allocation (b : BranchT) (name : NameString) :
  (∀ percentage node b', AllocatePercentage percentage node b = Ok b' →
     base <$> GetNodeByName (Branch b') name =
     base <$> GetNodeByName (Branch b) name) ∧
  (∀ b', SpreadPercentage b = Ok b' →
     base <$> GetNodeByName (Branch b') name =
     base <$> GetNodeByName (Branch b) name) ∧
  base <$> GetNodeByName (Branch (ResetAllocations b)) name =
    base <$> GetNodeByName (Branch b) name ∧
  (∀ b', SpreadPercentageOnAllNotSetNodes b = Ok b' →
     base <$> GetNodeByName (Branch b') name =
     base <$> GetNodeByName (Branch b) name) ∧
  (∀ out level,
     base <$> GetNodeByName (DumpTree (Branch b) out level).2 name =
     base <$> GetNodeByName (Branch b) name).
Proof.
  split; [|split; [|split; [|split]]].
  - intros percentage node b' [Hn Hb]%AllocatePercentage_same_nodes.
    by apply GetNodeByName_base_ext, preorder_same_nodes.
  - intros b' [Hn Hb]%SpreadPercentage_same_nodes.
    by apply GetNodeByName_base_ext, preorder_same_nodes.
  - apply GetNodeByName_base_ext.
    apply (ResetAllocations_node_preorder (Branch b)).
  - intros b' Hcall. apply GetNodeByName_base_ext.
    apply (SpreadPercentageOnAllNotSetNodes_node_preorder (Branch b)).
    change (SpreadPercentageOnAllNotSetNodes b ≫= (λ b', Ok (Branch b')) =
            Ok (Branch b')). by rewrite Hcall.
  - intros out level. apply GetNodeByName_base_ext.
    by destruct (same_allocation_spec _ _
                   (DumpTree_same_allocation (Branch b) out level))
      as (_ & _ & ? & _).
Qed.

Lemma consistent_Branch_ctor self indeterminate slots name :
  consistent (Branch_ctor self indeterminate slots name).
Proof. intros k. unfold percentage_of. simpl. by rewrite lookup_empty. Qed.

Lemma consistent_AddNode node (b : BranchT) :
  consistent b → consistent (AddNode node b).
Proof. intros Hcons k. apply (Hcons k). Qed.

End RuleTree.

(** * Worked examples *)

Arguments Leaf {ResultType ParentOrder} l.
Arguments Branch {ResultType ParentOrder} b.
Arguments Leaf_ctor {ResultType ParentOrder} self indeterminate name val.
Arguments Branch_ctor {ResultType ParentOrder} self indeterminate
  indeterminate_slots name.
Arguments AddNode {ResultType ParentOrder} node b.
Arguments AddRule {ResultType ParentOrder} rule t.
Arguments GetParent {ResultType ParentOrder} t.
Arguments addr {ResultType ParentOrder} t.
Arguments children {ResultType ParentOrder} b.
Arguments percentage_of {ResultType ParentOrder} b node.
Arguments slots_owned {ResultType ParentOrder} b node.
Arguments AllocatePercentage {ResultType ParentOrder} percentage node b.
Arguments SpreadPercentage {ResultType ParentOrder} b.
Arguments ResetAllocations {ResultType ParentOrder} b.
Arguments SpreadPercentageOnAllNotSetNodes {ResultType ParentOrder} b.
Arguments allRulesPassed {ParentOrder} rules parent.
Arguments getRandomNode {ResultType ParentOrder rand_state} rand b _.
Arguments Branch_Get {ResultType ParentOrder rand_state} rand b parent _.
Arguments Branch_wf {ResultType ParentOrder} b.
Arguments Branch_wf_check {ResultType ParentOrder} b.
Arguments has_child {ResultType ParentOrder} b.
Arguments has_child_check {ResultType ParentOrder} b.
Arguments tree_wf {ResultType ParentOrder} _.
Arguments routing_ready {ResultType ParentOrder} _.
Arguments routing_ready_check {ResultType ParentOrder} t.
Arguments every_branch {ResultType ParentOrder} P _.
Arguments every_branch_check {ResultType ParentOrder} check t.
Arguments freshly_built {ResultType ParentOrder} _ _.
Arguments spread_unset {ResultType ParentOrder} _ _.
Arguments freshly_built_leaf {ResultType ParentOrder} l.
Arguments freshly_built_branch {ResultType ParentOrder} b b0 _ _ _ _ _.
Arguments Attempt {ResultType ParentOrder rand_state} rand b parent g r.
Arguments AbsentRun {ResultType ParentOrder rand_state} rand b parent _ _ _.
Arguments Retry_outcome {ResultType ParentOrder rand_state} rand b parent g r.
Arguments branch_base {ParentOrder T} _.
Arguments m_nodes {ParentOrder T} _.
Arguments m_nodesPercentageMap {ParentOrder T} _.
Arguments m_percentageAllocations {ParentOrder T} _.
Arguments m_lastAllocated {ParentOrder T} _.
Arguments m_rules {ParentOrder} _.

(** A generator that returns 0, 1, 2, ... *)
Definition counter (s : N) : N * N := (s, N.succ s).

(** The outcome is a venue name, the order is its quantity. *)
Definition small_order : Rule Z :=
  {| m_ruleFunction := Some (λ quantity, bool_decide (quantity < 100)) |}.

(** What the storage of a new Branch may hold. *)
Definition stale_slots : vec (option ptr) 100 := vreplicate 100 (Some 77%positive).

Definition or_keep {A} (r : res A) (a : A) : A :=
  match r with
  | Ok a' => a'
  | _ => a
  end.

Definition leaf_A : TreeNode string Z := Leaf (Leaf_ctor 2 (Some 9%positive) "A" "venueA").
Definition leaf_B : TreeNode string Z :=
  AddRule small_order (Leaf (Leaf_ctor 3 None "B" "venueB")).
Definition leaf_C : TreeNode string Z := Leaf (Leaf_ctor 5 None "C" "venueC").
Definition leaf_D : TreeNode string Z := Leaf (Leaf_ctor 6 None "D" "venueD").

(** sub = { C, D } and root = { A, B, sub }, as built, never allocated. *)
Definition sub_built : BranchOf Z (TreeNode string Z) :=
  AddNode leaf_D (AddNode leaf_C (Branch_ctor 4 None stale_slots "sub")).

Definition root_of (sub : BranchOf Z (TreeNode string Z))
    : BranchOf Z (TreeNode string Z) :=
  AddNode (Branch sub)
    (AddNode leaf_B (AddNode leaf_A (Branch_ctor 1 None stale_slots "root"))).

Definition root_built : BranchOf Z (TreeNode string Z) := root_of sub_built.

(** The same tree configured by hand: sub gives all to C, root gives 70 to
    A and 30 to B. *)
Definition sub_explicit : BranchOf Z (TreeNode string Z) :=
  or_keep (AllocatePercentage 100 5 sub_built) sub_built.

Definition root_explicit : BranchOf Z (TreeNode string Z) :=
  or_keep (b ← AllocatePercentage 70 2 (root_of sub_explicit);
           AllocatePercentage 30 3 b)
    (root_of sub_explicit).

(** The tree after the automatic spread: 34/33/33 at the root, 50/50 at sub. *)
Definition root_spread : BranchOf Z (TreeNode string Z) :=
  or_keep (SpreadPercentageOnAllNotSetNodes root_built) root_built.

Lemma root_built_wf : tree_wf (Branch root_built).
Proof.
  apply (every_branch_check_sound _ _ _ Branch_wf_check).
  - apply Branch_wf_check_sound.
  - vm_compute. reflexivity.
Qed.

Lemma root_explicit_wf : tree_wf (Branch root_explicit).
Proof.
  apply (every_branch_check_sound _ _ _ Branch_wf_check).
  - apply Branch_wf_check_sound.
  - vm_compute. reflexivity.
Qed.

Lemma root_spread_wf : Branch_wf root_spread.
Proof. apply Branch_wf_check_sound. vm_compute. reflexivity. Qed.

Lemma root_built_has_child : every_branch has_child (Branch root_built).
Proof.
  apply (every_branch_check_sound _ _ _ has_child_check).
  - apply has_child_check_sound.
  - vm_compute. reflexivity.
Qed.

Lemma root_explicit_has_child : every_branch has_child (Branch root_explicit).
Proof.
  apply (every_branch_check_sound _ _ _ has_child_check).
  - apply has_child_check_sound.
  - vm_compute. reflexivity.
Qed.

Lemma root_built_fresh : freshly_built (Branch root_explicit) (Branch root_built).
Proof.
  vm_compute.
  apply freshly_built_branch; [reflexivity| |reflexivity..].
  repeat first [apply Forall2_nil_2 | apply Forall2_cons_2 | apply freshly_built_leaf].
  apply freshly_built_branch; [reflexivity| |reflexivity..].
  repeat first [apply Forall2_nil_2 | apply Forall2_cons_2 | apply freshly_built_leaf].
Qed.

(** ** The theorems at the example tree *)

Lemma root_spread_ready : routing_ready (Branch root_spread).
Proof. apply routing_ready_check_sound. vm_compute. reflexivity. Qed.

Lemma Branch_Get_spec_witness :
  allRulesPassed (m_rules (branch_base root_spread)) 500 = Ok true ∧
  Branch_wf root_spread ∧ m_lastAllocated root_spread = 100 ∧
  routing_ready (Branch root_spread) ∧
  Retry_outcome counter root_spread 500 34%N
    (Branch_Get counter root_spread 500 34%N) ∧
  is_Ok (Branch_Get counter root_spread 500 34%N).
Proof.
  assert (allRulesPassed (m_rules (branch_base root_spread)) 500 = Ok true)
    as Hrules by (vm_compute; reflexivity).
  assert (m_lastAllocated root_spread = 100) as H100 by (vm_compute; reflexivity).
  split; [exact Hrules|]. split; [exact root_spread_wf|]. split; [exact H100|].
  split; [exact root_spread_ready|].
  pose proof (Branch_Get_spec _ _ _ counter root_spread 500 34%N)
    as (_ & Hretry & Hreturns).
  split; [exact (Hretry Hrules root_spread_wf H100)
         |exact (Hreturns root_spread_ready)].
Defined.

(** The run behind the witness.  The table of the root is A on slots 0 to
    32 and 99, B on 33 to 65, sub on 66 to 98.  The draws 34 to 65 land on
    B, whose rule rejects an order of 500; the draw 66 lands on sub, whose
    own draw 67 lands on D. *)
Example Branch_Get_root_spread :
  Branch_Get counter root_spread 500 34%N = Ok (Some "venueD", 68%N).
Proof. vm_compute. reflexivity. Qed.

Lemma getRandomNode_spec_witness :
  Branch_wf root_spread ∧
  ∃ child g',
    getRandomNode counter root_spread 40%N = Ok (Some (addr child), g') ∧
    child ∈ m_nodes root_spread.
Proof.
  split; [exact root_spread_wf|].
  apply (getRandomNode_spec _ _ _ counter root_spread 40%N root_spread_wf).
  vm_compute; reflexivity.
Defined.

Lemma AllocatePercentage_spec_witness :
  Branch_wf root_built ∧ 0 ≤ 30 ∧ m_lastAllocated root_built + 30 ≤ 100 ∧
  2%positive ∈ children root_built ∧
  ∃ b', AllocatePercentage 30 2 root_built = Ok b' ∧
        m_lastAllocated b' = m_lastAllocated root_built + 30 ∧
        m_percentageAllocations b' !! 29%nat = Some (Some 2%positive) ∧
        m_percentageAllocations b' !! 30%nat =
          m_percentageAllocations root_built !! 30%nat.
Proof.
  assert (Branch_wf root_built) as Hwf
    by (apply Branch_wf_check_sound; vm_compute; reflexivity).
  assert (0 ≤ 30) as Hp by lia.
  assert (m_lastAllocated root_built + 30 ≤ 100) as Hsum
    by (vm_compute; discriminate).
  assert (2%positive ∈ children root_built) as Hin
    by (apply (bool_decide_unpack (2%positive ∈ children root_built));
        vm_compute; exact I).
  split; [exact Hwf|]. split; [exact Hp|]. split; [exact Hsum|].
  split; [exact Hin|].
  destruct (AllocatePercentage_spec _ _ root_built 30 2 Hwf Hp Hsum Hin)
    as (b' & Hcall & Hlast & Hslots & _).
  exists b'. split; [exact Hcall|]. split; [exact Hlast|].
  split; [exact (Hslots 29%nat)|exact (Hslots 30%nat)].
Defined.

Lemma SpreadPercentage_uniform_witness :
  Branch_wf root_built ∧ m_lastAllocated root_built = 0 ∧
  m_nodes root_built ≠ [] ∧ NoDup (children root_built) ∧
  ∃ b', SpreadPercentage root_built = Ok b' ∧ m_lastAllocated b' = 100 ∧
        Z.of_nat (slots_owned b' 2) = 34 ∧ Z.of_nat (slots_owned b' 4) = 33.
Proof.
  assert (Branch_wf root_built) as Hwf
    by (apply Branch_wf_check_sound; vm_compute; reflexivity).
  assert (m_lastAllocated root_built = 0) as Hlast by (vm_compute; reflexivity).
  assert (m_nodes root_built ≠ []) as Hne by (vm_compute; discriminate).
  assert (NoDup (children root_built)) as Hnd
    by (apply (bool_decide_unpack (NoDup (children root_built)));
        vm_compute; exact I).
  split; [exact Hwf|]. split; [exact Hlast|]. split; [exact Hne|].
  split; [exact Hnd|].
  destruct (SpreadPercentage_uniform _ _ root_built Hwf Hlast Hne Hnd)
    as (b' & Hcall & Htotal & Hshares).
  exists b'. split; [exact Hcall|]. split; [exact Htotal|].
  split.
  - exact (proj1 (proj2 (proj2 (Hshares 0%nat 2%positive eq_refl)))).
  - exact (proj1 (proj2 (proj2 (Hshares 2%nat 4%positive eq_refl)))).
Defined.

Lemma SpreadPercentageOnAllNotSetNodes_spec_witness :
  tree_wf (Branch root_built) ∧ every_branch has_child (Branch root_built) ∧
  ∃ b', SpreadPercentageOnAllNotSetNodes root_built = Ok b' ∧
        spread_unset (Branch root_built) (Branch b').
Proof.
  split; [exact root_built_wf|]. split; [exact root_built_has_child|].
  exact (SpreadPercentageOnAllNotSetNodes_spec _ _ root_built
           root_built_wf root_built_has_child).
Defined.

Lemma ResetAllocations_then_spread_witness :
  tree_wf (Branch root_explicit) ∧
  every_branch has_child (Branch root_explicit) ∧
  freshly_built (Branch root_explicit) (Branch root_built) ∧
  ∃ b', SpreadPercentageOnAllNotSetNodes (ResetAllocations root_explicit) = Ok b' ∧
        SpreadPercentageOnAllNotSetNodes root_built = Ok b'.
Proof.
  split; [exact root_explicit_wf|]. split; [exact root_explicit_has_child|].
  split; [exact root_built_fresh|].
  exact (ResetAllocations_then_spread _ _ root_explicit root_built
           root_explicit_wf root_explicit_has_child root_built_fresh).
Defined.

(** ** Where the code departs from its specification *)

(** C4 (the code departs from the claim).  With one percent allocated to
    child A, a request for [SIZE_MAX] more exceeds the remaining budget of
    99, yet the sum wraps around to 0, the guard [> 100] does not fire and
    the call returns: no exception, the running total falls back to 0, the
    percentage recorded for A wraps to 0 and no slot is written. *)
Theorem AllocatePercentage_budget_wraps :
  let b1 := or_keep (AllocatePercentage 1 2 root_built) root_built in
  m_lastAllocated b1 = 1 ∧
  percentage_of b1 2 = 1 ∧
  m_lastAllocated b1 + SIZE_MAX > 100 ∧
  match AllocatePercentage SIZE_MAX 2 b1 with
  | Ok b2 =>
      m_lastAllocated b2 = 0 ∧ percentage_of b2 2 = 0 ∧
      m_percentageAllocations b2 = m_percentageAllocations b1
  | Throw _ | Undefined => False
  end.
Proof. vm_compute. repeat split; reflexivity. Qed.

(** A Leaf constructed in storage that held the address 9, and not yet
    added to any Branch. *)
Example GetParent_leaf_A : GetParent leaf_A = Some 9%positive.
Proof. reflexivity. Qed.

(** ** The other operations at the example tree *)

Example GetNodeByName_D :
  addr <$> GetNodeByName _ _ (Branch root_built) "D" = Some 6%positive.
Proof. reflexivity. Qed.

Example GetNodeByName_root :
  addr <$> GetNodeByName _ _ (Branch root_built) "root" = Some 1%positive.
Proof. reflexivity. Qed.

Example GetNodeByName_unknown :
  addr <$> GetNodeByName _ _ (Branch root_built) "E" = None.
Proof. reflexivity. Qed.

Example SpreadPercentage_no_child :
  SpreadPercentage (Branch_ctor (ResultType := string) (ParentOrder := Z)
                      4 None stale_slots "sub") = Undefined.
Proof. reflexivity. Qed.

Example getRandomNode_unallocated :
  getRandomNode counter root_built 0%N = Throw (SumPercentNot100 "root" 0).
Proof. reflexivity. Qed.

Example AllocatePercentage_over_budget :
  AllocatePercentage 50 3
    (or_keep (AllocatePercentage 60 2 root_built) root_built) =
  Throw (BadPercentAllocation "root" 110).
Proof. vm_compute. reflexivity. Qed.

Example AllocatePercentage_not_a_child :
  AllocatePercentage 10 6 root_built = Throw (NodeNotInBranch "root").
Proof. vm_compute. reflexivity. Qed.

(** The hand-made 70/30/0 allocation, reset and spread again, is the
    34/33/33 of the automatic spread. *)
Example ResetAllocations_then_spread_root_explicit :
  match SpreadPercentageOnAllNotSetNodes (ResetAllocations root_explicit) with
  | Ok b =>
      (percentage_of b 2, percentage_of b 3, percentage_of b 4) = (34, 33, 33) ∧
      m_percentageAllocations b = m_percentageAllocations root_spread
  | Throw _ | Undefined => False
  end.
Proof. vm_compute. split; reflexivity. Qed.

(** ** The further properties at the example tree *)

Arguments passes {ParentOrder} parent rule.
Arguments rejects {ParentOrder} parent rule.
Arguments Get {ResultType ParentOrder rand_state} rand t parent _.
Arguments accepting_path {ResultType ParentOrder} parent _ _.
Arguments m_val {ResultType ParentOrder} _.
Arguments consistent {ResultType ParentOrder} b.
Arguments rules_callable {ResultType ParentOrder} t.
Arguments DumpTree {ResultType ParentOrder} t out level.
Arguments render {ResultType ParentOrder} t level.

Definition large_order : Rule Z :=
  {| m_ruleFunction := Some (λ quantity, bool_decide (100 ≤ quantity)) |}.

(** A rule whose [std::function] is empty. *)
Definition empty_rule : Rule Z := {| m_ruleFunction := None |}.

Definition root_empty : BranchOf Z (TreeNode string Z) :=
  Branch_ctor 1 None stale_slots "root".

Lemma root_explicit_consistent : consistent root_explicit.
Proof.
  assert (Branch_wf (root_of sub_explicit)) as Hwf
    by (apply Branch_wf_check_sound; vm_compute; reflexivity).
  apply (consistent_allocate_all _ _ [(2%positive, 70); (3%positive, 30)]
           (root_of sub_explicit) root_explicit).
  - repeat constructor; simpl; lia.
  - exact Hwf.
  - unfold root_of. do 3 apply consistent_AddNode. apply consistent_Branch_ctor.
  - vm_compute. reflexivity.
Qed.

Lemma allRulesPassed_short_circuit_witness :
  Forall (passes 50) [small_order] ∧
  allRulesPassed [small_order] 50 = Ok true ∧
  allRulesPassed ([small_order] ++ large_order :: [empty_rule]) 50 = Ok false ∧
  allRulesPassed ([small_order] ++ empty_rule :: [large_order]) 50 =
    Throw bad_function_call.
Proof.
  assert (Forall (passes 50) [small_order]) as Hpass.
  { repeat constructor. eexists. split; [reflexivity|]. reflexivity. }
  split; [exact Hpass|].
  pose proof (allRulesPassed_short_circuit _ 50 [small_order] [empty_rule]
                large_order Hpass) as (Htrue & Hfalse & _).
  pose proof (allRulesPassed_short_circuit _ 50 [small_order] [large_order]
                empty_rule Hpass) as (_ & _ & Hthrow).
  split; [exact Htrue|]. split.
  - apply Hfalse. eexists. split; [reflexivity|]. reflexivity.
  - apply Hthrow. reflexivity.
Defined.

Lemma Branch_Get_not_configured_witness :
  allRulesPassed (m_rules (branch_base root_spread)) 500 = Ok true ∧
  Branch_Get counter (ResetAllocations root_spread) 500 34%N =
  Throw (SumPercentNot100 "root" 0).
Proof.
  assert (allRulesPassed (m_rules (branch_base root_spread)) 500 = Ok true)
    as Hrules by (vm_compute; reflexivity).
  split; [exact Hrules|].
  exact (proj2 (Branch_Get_not_configured _ _ _ counter root_spread 500 34%N
                  Hrules)).
Defined.

Lemma AllocatePercentage_guards_witness :
  Branch_wf root_built ∧ 0 ≤ 30 ∧ 30 ≤ SIZE_MAX - 100 ∧
  is_Ok (AllocatePercentage 30 2 root_built) ∧
  AllocatePercentage 30 7 root_built = Throw (NodeNotInBranch "root").
Proof.
  assert (Branch_wf root_built) as Hwf
    by (apply Branch_wf_check_sound; vm_compute; reflexivity).
  assert (0 ≤ 30) as Hp by lia.
  assert (30 ≤ SIZE_MAX - 100) as Hmax by (vm_compute; discriminate).
  assert (m_lastAllocated root_built + 30 ≤ 100) as Hsum
    by (vm_compute; discriminate).
  split; [exact Hwf|]. split; [exact Hp|]. split; [exact Hmax|]. split.
  - apply (AllocatePercentage_guards _ _ root_built 30 2 Hwf Hp Hmax).
    split; [exact Hsum|].
    apply (bool_decide_unpack (2%positive ∈ children root_built)).
    vm_compute. exact I.
  - apply (AllocatePercentage_guards _ _ root_built 30 7 Hwf Hp Hmax).
    split; [exact Hsum|].
    apply (bool_decide_unpack (7%positive ∉ children root_built)).
    vm_compute. exact I.
Defined.

Lemma Branch_without_children_witness :
  Branch_wf root_empty ∧ m_nodes root_empty = [] ∧
  m_lastAllocated root_empty = 0 ∧
  SpreadPercentage root_empty = Undefined ∧
  Branch_Get counter root_empty 500 0%N = Throw (SumPercentNot100 "root" 0).
Proof.
  assert (Branch_wf root_empty) as Hwf
    by (apply Branch_wf_check_sound; vm_compute; reflexivity).
  split; [exact Hwf|]. split; [reflexivity|].
  destruct (Branch_without_children _ _ _ counter root_empty 500 0%N Hwf
              eq_refl) as (Hlast & _ & Hspread & Hget).
  split; [exact Hlast|]. split; [exact Hspread|]. apply Hget. reflexivity.
Defined.

Lemma AddNode_then_AllocatePercentage_witness :
  Branch_wf sub_built ∧ 0 ≤ 40 ∧ m_lastAllocated sub_built + 40 ≤ 100 ∧
  (addr leaf_A ∉ children sub_built) ∧
  AllocatePercentage 40 (addr leaf_A) sub_built =
    Throw (NodeNotInBranch "sub") ∧
  ∃ b', AllocatePercentage 40 (addr leaf_A) (AddNode leaf_A sub_built) = Ok b' ∧
        m_lastAllocated b' = m_lastAllocated sub_built + 40 ∧
        percentage_of b' (addr leaf_A) = 40.
Proof.
  assert (Branch_wf sub_built) as Hwf
    by (apply Branch_wf_check_sound; vm_compute; reflexivity).
  assert (0 ≤ 40) as Hp by lia.
  assert (m_lastAllocated sub_built + 40 ≤ 100) as Hsum
    by (vm_compute; discriminate).
  assert (addr leaf_A ∉ children sub_built) as Hnew
    by (apply (bool_decide_unpack (addr leaf_A ∉ children sub_built));
        vm_compute; exact I).
  split; [exact Hwf|]. split; [exact Hp|]. split; [exact Hsum|].
  split; [exact Hnew|].
  destruct (AddNode_then_AllocatePercentage _ _ sub_built leaf_A 40
              Hwf Hp Hsum Hnew) as (Hthrow & Hok & _).
  split; [exact Hthrow|exact Hok].
Defined.

Lemma SpreadPercentage_again_throws_witness :
  m_lastAllocated root_spread = 100 ∧ m_nodes root_spread ≠ [] ∧
  (length (m_nodes root_spread) ≤ 100)%nat ∧
  SpreadPercentage root_spread =
  Throw (BadPercentAllocation "root"
           (100 + 100 `div` Z.of_nat (length (m_nodes root_spread)))).
Proof.
  assert (m_lastAllocated root_spread = 100) as H100
    by (vm_compute; reflexivity).
  assert (m_nodes root_spread ≠ []) as Hchild
    by (apply has_child_check_sound; vm_compute; reflexivity).
  assert ((length (m_nodes root_spread) ≤ 100)%nat) as Hcount
    by (vm_compute; lia).
  split; [exact H100|]. split; [exact Hchild|]. split; [exact Hcount|].
  exact (SpreadPercentage_again_throws _ _ root_spread H100 Hchild Hcount).
Defined.

Lemma Get_result_sound_witness :
  Get counter (Branch root_spread) 500 34%N = Ok (Some "venueD", 68%N) ∧
  ∃ l, accepting_path 500 (Branch root_spread) l ∧ m_val l = "venueD".
Proof.
  assert (Get counter (Branch root_spread) 500 34%N = Ok (Some "venueD", 68%N))
    as Hget by (vm_compute; reflexivity).
  split; [exact Hget|].
  exact (Get_result_sound _ _ _ counter (Branch root_spread) 500 34%N 68%N
           "venueD" Hget).
Defined.

Lemma tree_wf_kept_witness :
  tree_wf (Branch root_built) ∧
  tree_wf (Branch (AddNode leaf_A root_built)) ∧
  tree_wf (Branch (ResetAllocations root_built)) ∧
  tree_wf (Branch root_spread).
Proof.
  split; [exact root_built_wf|].
  destruct (tree_wf_kept _ _ root_built root_built_wf)
    as (Hadd & _ & _ & Hreset & Hspread).
  split; [apply Hadd; constructor|]. split; [exact Hreset|].
  apply Hspread. vm_compute. reflexivity.
Defined.

Lemma SpreadPercentageOnAllNotSetNodes_ready_witness :
  tree_wf (Branch root_built) ∧ every_branch has_child (Branch root_built) ∧
  every_branch (λ c, m_lastAllocated c = 0 ∨ m_lastAllocated c = 100)
    (Branch root_built) ∧
  rules_callable (Branch root_built) ∧
  ∃ b', SpreadPercentageOnAllNotSetNodes root_built = Ok b' ∧
        routing_ready (Branch b') ∧
        ∀ parent g, is_Ok (Branch_Get counter b' parent g).
Proof.
  assert (every_branch (λ c, m_lastAllocated c = 0 ∨ m_lastAllocated c = 100)
            (Branch root_built)) as Hlast.
  { apply (every_branch_check_sound _ _ _
             (λ c, bool_decide (m_lastAllocated c = 0 ∨ m_lastAllocated c = 100))).
    - intros c. apply bool_decide_eq_true_1.
    - vm_compute. reflexivity. }
  assert (rules_callable (Branch root_built)) as Hrules.
  { unfold rules_callable.
    apply (bool_decide_unpack
             (Forall (λ n, Forall (λ rule, is_Some (m_ruleFunction Z rule))
                             (m_rules (base _ _ n)))
                (preorder _ _ (Branch root_built)))).
    vm_compute. exact I. }
  split; [exact root_built_wf|]. split; [exact root_built_has_child|].
  split; [exact Hlast|]. split; [exact Hrules|].
  exact (SpreadPercentageOnAllNotSetNodes_ready _ _ _ counter root_built
           root_built_wf root_built_has_child Hlast Hrules).
Defined.

Lemma SpreadPercentageOnAllNotSetNodes_idempotent_witness :
  tree_wf (Branch root_built) ∧
  SpreadPercentageOnAllNotSetNodes root_built = Ok root_spread ∧
  SpreadPercentageOnAllNotSetNodes root_spread = Ok root_spread ∧
  every_branch (λ c, m_lastAllocated c ≠ 0) (Branch root_spread).
Proof.
  assert (SpreadPercentageOnAllNotSetNodes root_built = Ok root_spread)
    as Hcall by (vm_compute; reflexivity).
  split; [exact root_built_wf|]. split; [exact Hcall|].
  exact (SpreadPercentageOnAllNotSetNodes_idempotent _ _ root_built root_spread
           root_built_wf Hcall).
Defined.

Lemma consistent_kept_witness :
  Branch_wf root_explicit ∧ consistent root_explicit ∧
  consistent (AddNode leaf_D root_explicit) ∧
  consistent (ResetAllocations root_explicit) ∧
  consistent (or_keep (SpreadPercentage (ResetAllocations root_explicit))
                root_explicit).
Proof.
  assert (Branch_wf root_explicit) as Hwf
    by (apply Branch_wf_check_sound; vm_compute; reflexivity).
  assert (Branch_wf (ResetAllocations root_explicit)) as Hwf0
    by (apply Branch_wf_check_sound; vm_compute; reflexivity).
  split; [exact Hwf|]. split; [exact root_explicit_consistent|].
  destruct (consistent_kept _ _ root_explicit Hwf root_explicit_consistent)
    as (_ & Hadd & _ & _ & Hreset).
  split; [exact (Hadd leaf_D)|]. split; [exact Hreset|].
  destruct (consistent_kept _ _ (ResetAllocations root_explicit) Hwf0 Hreset)
    as (_ & _ & _ & Hspread & _).
  apply Hspread. vm_compute. reflexivity.
Defined.

Lemma percentages_sum_to_total_witness :
  Branch_wf root_explicit ∧ consistent root_explicit ∧
  NoDup (children root_explicit) ∧
  sum_Z (percentage_of root_explicit <$> children root_explicit) = 100.
Proof.
  assert (Branch_wf root_explicit) as Hwf
    by (apply Branch_wf_check_sound; vm_compute; reflexivity).
  assert (NoDup (children root_explicit)) as Hnodup
    by (apply (bool_decide_unpack (NoDup (children root_explicit)));
        vm_compute; exact I).
  split; [exact Hwf|]. split; [exact root_explicit_consistent|].
  split; [exact Hnodup|].
  apply (percentages_sum_to_total _ _ root_explicit Hwf
           root_explicit_consistent Hnodup).
  vm_compute. reflexivity.
Defined.

(** What [DumpTree] prints for the example tree after the automatic
    spread. *)
Example DumpTree_root_spread :
  (DumpTree (Branch root_spread) "" 0).1 = render (Branch root_spread) 0 ∧
  String.words (render (Branch root_spread) 0) =
    ["root"; "34"; ":"; "A"; "33"; ":"; "B"; "33"; ":"; "sub";
     "50"; ":"; "C"; "50"; ":"; "D"].
Proof. vm_compute. split; reflexivity. Qed.
